(** * SQLHighlight: highlighting reference snippets inside SQL text

    A shallow embedding of
    [wren-ui/src/components/pages/home/thread/feedback/SQLHighlight.tsx]
    and of its earlier variant, together with the part of the ECMAScript
    [RegExp] machinery the component relies on ([new RegExp],
    [RegExp.prototype.test], [String.prototype.split] with a pattern).

    Conventions.
    - A JavaScript string is a list of code units.  The development works
      with code units below 256 (Latin-1), written as [ascii].
    - A JavaScript completion is either a normal value or a thrown error.
      A third outcome, [Unmodelled], marks runs that leave the fragment of
      the pattern language covered by the engine of this file; no statement
      is made about what JavaScript does on such runs.
    - Markup is kept as data: a [<span>] or [<mark>] element with its text
      child and, for [<mark>], the references whose tags it carries. *)

From Stdlib Require Import Ascii String ZArith Lia Bool Arith PeanoNat List.
Import ListNotations.

Open Scope string_scope.
Open Scope list_scope.

(** ** Strings *)

Definition str := list ascii.

Definition of_string (x : string) : str := list_ascii_of_string x.
Coercion of_string : string >-> str.

Definition code (c : ascii) : N := N_of_ascii c.

(** ** Completions *)

Inductive JSError := TypeError | SyntaxError.

Inductive completion (A : Type) :=
| Normal (a : A)
| Throw (e : JSError)
| Unmodelled.

Arguments Normal {A} a.
Arguments Throw {A} e.
Arguments Unmodelled {A}.

Definition bind {A B} (c : completion A) (f : A -> completion B) : completion B :=
  match c with
  | Normal a => f a
  | Throw e => Throw e
  | Unmodelled => Unmodelled
  end.

Definition cmap {A B} (f : A -> B) (c : completion A) : completion B :=
  bind c (fun a => Normal (f a)).

Declare Scope js_scope.
Delimit Scope js_scope with js.
Notation "x <- c ;; k" := (bind c (fun x => k))
  (at level 61, c at next level, right associativity) : js_scope.
Notation "' pat <- c ;; k" := (bind c (fun x => match x with pat => k end))
  (at level 61, pat pattern, c at next level, right associativity) : js_scope.
Local Open Scope js_scope.

(** ** The pattern language *)

Module RegExp.

Local Open Scope char_scope.

Inductive cclass := CSpace | CDigit | CWord.
Inductive quant := QStar | QPlus | QOpt.

(** Abstract syntax.  [Group i r] is the capturing group number [i + 1]
    of the pattern; a non-capturing group [(?:r)] is [r] itself. *)
Inductive regex :=
| Empty
| Chr (c : ascii)
| Any
| Class (neg : bool) (k : cclass)
| CharSet (cs : list ascii)
| Seq (r1 r2 : regex)
| Alt (r1 r2 : regex)
| Rep (q : quant) (greedy : bool) (r : regex)
| Group (i : nat) (r : regex).

(** *** Lexical structure *)

Inductive token :=
| TAtom (r : regex)
| TOpen
| TOpenNC
| TClose
| TBar
| TQuant (q : quant) (greedy : bool).

Inductive parse_result (A : Type) :=
| Parsed (a : A)
| BadSyntax
| OutOfFragment.

Arguments Parsed {A} a.
Arguments BadSyntax {A}.
Arguments OutOfFragment {A}.

Definition is_digit (c : ascii) : bool :=
  (48 <=? code c)%N && (code c <=? 57)%N.

Definition is_upper (c : ascii) : bool :=
  (65 <=? code c)%N && (code c <=? 90)%N.

Definition is_lower (c : ascii) : bool :=
  (97 <=? code c)%N && (code c <=? 122)%N.

Definition is_word (c : ascii) : bool :=
  is_digit c || is_upper c || is_lower c || (c =? "_").

(** WhiteSpace and LineTerminator code units below 256:
    TAB, LF, VT, FF, CR, SP and NBSP. *)
Definition is_space (c : ascii) : bool :=
  ((9 <=? code c)%N && (code c <=? 13)%N) || (code c =? 32)%N || (code c =? 160)%N.

Definition is_line_terminator (c : ascii) : bool :=
  (code c =? 10)%N || (code c =? 13)%N.

(** The character after a backslash.  Class escapes, control escapes and
    identity escapes of ASCII punctuation are covered; back-references,
    [\b], [\c], [\x], [\u], [\0] and the like are not. *)
Definition escape (e : ascii) : option regex :=
  if e =? "s" then Some (Class false CSpace)
  else if e =? "S" then Some (Class true CSpace)
  else if e =? "d" then Some (Class false CDigit)
  else if e =? "D" then Some (Class true CDigit)
  else if e =? "w" then Some (Class false CWord)
  else if e =? "W" then Some (Class true CWord)
  else if e =? "t" then Some (Chr (ascii_of_N 9))
  else if e =? "n" then Some (Chr (ascii_of_N 10))
  else if e =? "v" then Some (Chr (ascii_of_N 11))
  else if e =? "f" then Some (Chr (ascii_of_N 12))
  else if e =? "r" then Some (Chr (ascii_of_N 13))
  else if is_word e || (128 <=? code e)%N then None
  else Some (Chr e).

Definition tcons (t : token) (r : parse_result (list token)) : parse_result (list token) :=
  match r with
  | Parsed ts => Parsed (t :: ts)
  | BadSyntax => BadSyntax
  | OutOfFragment => OutOfFragment
  end.

(** [tokenize None p] reads pattern text; [tokenize (Some acc) p] is inside
    a bracketed class whose members read so far are [acc] (reversed).
    Only classes that list their members literally are covered. *)
Fixpoint tokenize (inset : option (list ascii)) (p : str) : parse_result (list token) :=
  match inset with
  | Some acc =>
      match p with
      | [] => BadSyntax
      | c :: p' =>
          if c =? "]" then tcons (TAtom (CharSet (rev acc))) (tokenize None p')
          else if (c =? "\") || (c =? "-") || (c =? "^") || (c =? "[") then OutOfFragment
          else tokenize (Some (c :: acc)) p'
      end
  | None =>
      match p with
      | [] => Parsed []
      | c :: p' =>
          if c =? "\" then
            match p' with
            | [] => BadSyntax
            | e :: p'' =>
                match escape e with
                | Some a => tcons (TAtom a) (tokenize None p'')
                | None => OutOfFragment
                end
            end
          else if c =? "(" then
            match p' with
            | x :: p'' =>
                if x =? "?" then
                  match p'' with
                  | y :: p3 =>
                      if y =? ":" then tcons TOpenNC (tokenize None p3) else OutOfFragment
                  | [] => OutOfFragment
                  end
                else tcons TOpen (tokenize None p')
            | [] => tcons TOpen (tokenize None p')
            end
          else if c =? ")" then tcons TClose (tokenize None p')
          else if c =? "|" then tcons TBar (tokenize None p')
          else if c =? "." then tcons (TAtom Any) (tokenize None p')
          else if c =? "[" then tokenize (Some []) p'
          else if (c =? "*") || (c =? "+") || (c =? "?") then
            let q := if c =? "*" then QStar else if c =? "+" then QPlus else QOpt in
            match p' with
            | x :: p'' =>
                if x =? "?" then tcons (TQuant q false) (tokenize None p'')
                else tcons (TQuant q true) (tokenize None p')
            | [] => tcons (TQuant q true) (tokenize None p')
            end
          else if (c =? "{") || (c =? "}") || (c =? "]") || (c =? "^") || (c =? "$")
          then OutOfFragment
          else tcons (TAtom (Chr c)) (tokenize None p')
      end
  end.

(** *** Building the syntax tree *)

Fixpoint mkSeq (rs : list regex) : regex :=
  match rs with
  | [] => Empty
  | [r] => r
  | r :: rs' => Seq r (mkSeq rs')
  end.

Fixpoint mkAlt (rs : list regex) : regex :=
  match rs with
  | [] => Empty
  | [r] => r
  | r :: rs' => Alt r (mkAlt rs')
  end.

(** A disjunction under construction: the finished alternatives and the
    terms of the current one, both most recent first, and whether the most
    recent term already carries a quantifier. *)
Record frame := {
  f_alts : list regex;
  f_terms : list regex;
  f_quantified : bool
}.

Definition frame0 : frame := {| f_alts := []; f_terms := []; f_quantified := false |}.

Definition push_term (r : regex) (f : frame) : frame :=
  {| f_alts := f_alts f; f_terms := r :: f_terms f; f_quantified := false |}.

Definition close_frame (f : frame) : regex :=
  mkAlt (rev (mkSeq (rev (f_terms f)) :: f_alts f)).

Definition wrap (kind : option nat) (r : regex) : regex :=
  match kind with
  | Some i => Group i r
  | None => r
  end.

(** [build ts cur stack n]: [cur] is the innermost open disjunction,
    [stack] the enclosing groups with their kind, [n] the number of
    capturing groups opened so far.  Returns the tree and the number of
    capturing groups. *)
Fixpoint build (ts : list token) (cur : frame) (stack : list (option nat * frame)) (n : nat)
  : parse_result (regex * nat) :=
  match ts with
  | [] =>
      match stack with
      | [] => Parsed (close_frame cur, n)
      | _ :: _ => BadSyntax
      end
  | t :: ts' =>
      match t with
      | TAtom r => build ts' (push_term r cur) stack n
      | TOpen => build ts' frame0 ((Some n, cur) :: stack) (S n)
      | TOpenNC => build ts' frame0 ((None, cur) :: stack) n
      | TClose =>
          match stack with
          | [] => BadSyntax
          | (kind, parent) :: stack' =>
              build ts' (push_term (wrap kind (close_frame cur)) parent) stack' n
          end
      | TBar =>
          build ts'
            {| f_alts := mkSeq (rev (f_terms cur)) :: f_alts cur;
               f_terms := []; f_quantified := false |} stack n
      | TQuant q g =>
          match f_terms cur with
          | [] => BadSyntax
          | r :: rs =>
              if f_quantified cur then BadSyntax
              else build ts'
                     {| f_alts := f_alts cur; f_terms := Rep q g r :: rs;
                        f_quantified := true |} stack n
          end
      end
  end.

Definition parse (p : str) : parse_result (regex * nat) :=
  match tokenize None p with
  | Parsed ts => build ts frame0 [] 0
  | BadSyntax => BadSyntax
  | OutOfFragment => OutOfFragment
  end.

(** *** Matching *)

(** Canonicalize of the specification (non-Unicode, ignoreCase): the code
    unit of the upper-case form.  MICRO SIGN and Y WITH DIAERESIS leave
    Latin-1; SHARP S has no single-unit upper-case form and stays. *)
Definition canonicalize (c : ascii) : N :=
  let n := code c in
  if is_lower c then (n - 32)%N
  else if (224 <=? n)%N && (n <=? 254)%N && negb (n =? 247)%N then (n - 32)%N
  else if (n =? 181)%N then 924%N
  else if (n =? 255)%N then 376%N
  else n.

Definition char_eq (ignoreCase : bool) (a x : ascii) : bool :=
  if ignoreCase then (canonicalize a =? canonicalize x)%N else (a =? x).

(** Membership in [\s], [\d], [\w].  For code units below 256 the
    ignoreCase flag adds no member to these sets. *)
Definition in_class (k : cclass) (x : ascii) : bool :=
  match k with
  | CSpace => is_space x
  | CDigit => is_digit x
  | CWord => is_word x
  end.

Definition captures := list (option str).

Fixpoint set_cap (i : nat) (v : option str) (caps : captures) : captures :=
  match caps, i with
  | [], _ => []
  | _ :: caps', O => v :: caps'
  | c :: caps', S i' => c :: set_cap i' v caps'
  end.

Fixpoint groups (r : regex) : list nat :=
  match r with
  | Seq r1 r2 | Alt r1 r2 => groups r1 ++ groups r2
  | Rep _ _ r1 => groups r1
  | Group i r1 => i :: groups r1
  | _ => []
  end.

(** Step 4 of RepeatMatcher: the captures of the groups inside the
    repeated atom are reset before each iteration. *)
Definition clear (r : regex) (caps : captures) : captures :=
  fold_right (fun i cs => set_cap i None cs) caps (groups r).

(** The text consumed between input [s] and its suffix [s']. *)
Definition consumed (s s' : str) : str := firstn (length s - length s') s.

Definition mresult := option (str * captures).
Definition cont := str -> captures -> mresult.

Definition orelse (a b : mresult) : mresult :=
  match a with
  | Some x => Some x
  | None => b
  end.

(** One character against a character matcher. *)
Definition one (test : ascii -> bool) (s : str) (caps : captures) (k : cont) : mresult :=
  match s with
  | x :: s' => if test x then k s' caps else None
  | [] => None
  end.

(** The loop of RepeatMatcher for an unbounded quantifier whose minimum
    is reached: [mr] matches the repeated atom, [clr] resets its captures.
    An iteration that consumes nothing fails, so [fuel] = the length of
    the input is never exhausted. *)
Fixpoint star (mr : str -> captures -> cont -> mresult) (clr : captures -> captures)
    (greedy : bool) (k : cont) (fuel : nat) (s : str) (caps : captures) {struct fuel}
  : mresult :=
  match fuel with
  | O => k s caps
  | S fuel' =>
      let again :=
        mr s (clr caps)
          (fun s' caps' =>
             if (length s' <? length s)%nat then star mr clr greedy k fuel' s' caps'
             else None) in
      if greedy then orelse again (k s caps) else orelse (k s caps) again
  end.

(** The backtracking matcher, in continuation-passing style as in the
    specification: [m ic r s caps k] matches [r] at the front of [s] and
    hands the rest of the input and the captures to [k]; alternatives are
    tried in order and quantifiers are greedy unless marked lazy. *)
Fixpoint m (ic : bool) (r : regex) (s : str) (caps : captures) (k : cont) {struct r} : mresult :=
  match r with
  | Empty => k s caps
  | Chr c => one (char_eq ic c) s caps k
  | Any => one (fun x => negb (is_line_terminator x)) s caps k
  | Class neg cl => one (fun x => xorb neg (in_class cl x)) s caps k
  | CharSet cs => one (fun x => existsb (fun a => char_eq ic a x) cs) s caps k
  | Seq r1 r2 => m ic r1 s caps (fun s' caps' => m ic r2 s' caps' k)
  | Alt r1 r2 => orelse (m ic r1 s caps k) (m ic r2 s caps k)
  | Group i r1 =>
      m ic r1 s caps (fun s' caps' => k s' (set_cap i (Some (consumed s s')) caps'))
  | Rep QStar greedy r1 =>
      star (m ic r1) (clear r1) greedy k (length s) s caps
  | Rep QPlus greedy r1 =>
      m ic r1 s (clear r1 caps)
        (fun s' caps' => star (m ic r1) (clear r1) greedy k (length s') s' caps')
  | Rep QOpt greedy r1 =>
      let once :=
        m ic r1 s (clear r1 caps)
          (fun s' caps' => if (length s' <? length s)%nat then k s' caps' else None) in
      if greedy then orelse once (k s caps) else orelse (k s caps) once
  end.

(** *** RegExp objects *)

Record Flags := { global : bool; ignoreCase : bool }.

Record RegExpObject := {
  re_tree : regex;
  re_groups : nat;
  re_flags : Flags
}.

(** [new RegExp(pattern, flags)]. *)
Definition regexp_new (pattern : str) (flags : Flags) : completion RegExpObject :=
  match parse pattern with
  | Parsed (r, n) => Normal {| re_tree := r; re_groups := n; re_flags := flags |}
  | BadSyntax => Throw SyntaxError
  | OutOfFragment => Unmodelled
  end.

(** One attempt at index [length S - length s], where [s] is the input
    from that index on: the end index of the match and its captures. *)
Definition match_at (R : RegExpObject) (size : nat) (s : str) : option (nat * captures) :=
  match m (ignoreCase (re_flags R)) (re_tree R) s (repeat None (re_groups R))
          (fun s' caps => Some (s', caps)) with
  | Some (s', caps) => Some (size - length s', caps)
  | None => None
  end.

(** The search loop of RegExpBuiltinExec without the sticky flag: the
    first index from the current one on at which the pattern matches. *)
Fixpoint search (R : RegExpObject) (size : nat) (s : str) : option (nat * captures) :=
  match match_at R size s with
  | Some z => Some z
  | None =>
      match s with
      | [] => None
      | _ :: s' => search R size s'
      end
  end.

(** [R.test(S)] for an object whose [lastIndex] is [lastIndex]: the result
    and the new [lastIndex].  With the global flag the search starts at
    [lastIndex], which becomes the end of the match, or 0 when there is
    none; without it the search starts at 0 and [lastIndex] is left alone. *)
Definition regexp_test (R : RegExpObject) (lastIndex : nat) (S : str) : bool * nat :=
  let g := global (re_flags R) in
  let start := if g then lastIndex else 0 in
  if (length S <? start)%nat then (false, if g then 0 else lastIndex)
  else
    match search R (length S) (skipn start S) with
    | Some (e, _) => (true, if g then e else lastIndex)
    | None => (false, if g then 0 else lastIndex)
    end.

Definition substring (S : str) (from to : nat) : str :=
  firstn (to - from) (skipn from S).

(** The loop of [RegExp.prototype[Symbol.split]], which works on a sticky
    copy of the pattern and so leaves the [lastIndex] of [R] alone.  Each round either moves [q]
    forward or, after a match, moves [p] up to [q]; [fuel] bounds the
    number of rounds. *)
Fixpoint split_loop (fuel : nat) (R : RegExpObject) (S : str) (p q : nat)
  : option (list (option str)) :=
  match fuel with
  | O => None
  | S fuel' =>
      if (q <? length S)%nat then
        match match_at R (length S) (skipn q S) with
        | None => split_loop fuel' R S p (q + 1)
        | Some (e, caps) =>
            if (e =? p)%nat then split_loop fuel' R S p (q + 1)
            else
              match split_loop fuel' R S e e with
              | Some A => Some (Some (substring S p q) :: caps ++ A)
              | None => None
              end
        end
      else Some [Some (substring S p (length S))]
  end.

(** [S.split(R)] without a limit.  The loop always finishes within the
    rounds it is given (lemma [regexp_split_loop]). *)
Definition regexp_split (R : RegExpObject) (S : str) : list (option str) :=
  match S with
  | [] =>
      match match_at R 0 [] with
      | Some _ => []
      | None => [Some []]
      end
  | _ :: _ =>
      match split_loop (2 * length S + 2) R S 0 0 with
      | Some A => A
      | None => []
      end
  end.

End RegExp.

Import RegExp.

(** ** The host interface

    What the component asks of the JavaScript engine.  [re_test] threads the
    [lastIndex] property of the object it is called on. *)
Record Engine := {
  RE : Type;
  re_new : str -> Flags -> completion RE;
  re_test : RE -> nat -> str -> bool * nat;
  re_split : RE -> str -> list (option str)
}.

Definition ecma : Engine :=
  {| RE := RegExpObject;
     re_new := regexp_new;
     re_test := regexp_test;
     re_split := regexp_split |}.

(** ** Data *)

(** Modelled from the spec: the [Reference] type, which the component
    imports from [./utils]; that file is not among the sources.  A reference
    has a display number, a type that selects its icon, the snippet expected
    on a line, and an optional location whose [line] is a 1-based integer. *)
Record SqlLocation := { line : Z }.

Record Reference := {
  referenceNum : Z;
  type : str;
  sqlSnippet : str;
  sqlLocation : option SqlLocation
}.

Definition SqlLocation_eq_dec (a b : SqlLocation) : {a = b} + {a <> b}.
Proof. decide equality; apply Z.eq_dec. Defined.

Definition Reference_eq_dec (a b : Reference) : {a = b} + {a <> b}.
Proof.
  decide equality.
  - destruct sqlLocation0 as [x|], sqlLocation1 as [y|];
      try (right; discriminate); [|left; reflexivity].
    destruct (SqlLocation_eq_dec x y); [left; congruence | right; congruence].
  - apply (list_eq_dec ascii_dec).
  - apply (list_eq_dec ascii_dec).
  - apply Z.eq_dec.
Defined.

(** A piece of a split line is a string or, for a capturing group that took
    no part in the match, [undefined]. *)
Definition Part := option str.

(** ToString of a piece, as [RegExp.prototype.test] applies it. *)
Definition ToString (part : Part) : str :=
  match part with
  | Some t => t
  | None => "undefined"
  end.

(** The text a piece renders as: React renders [undefined] as nothing. *)
Definition rendered (part : Part) : str :=
  match part with
  | Some t => t
  | None => []
  end.

(** [<span key>{part}</span>] and [<mark key>{part}<span>{tags}</span></mark>];
    a tag shows the icon and number of its reference. *)
Inductive Element :=
| span (part : Part)
| mark (part : Part) (tags : list Reference).

(** The children of one [<div>]: [highlights[index] || line]. *)
Inductive Children :=
| Highlighted (elements : list Element)
| Text (line : str).

Record Output := {
  content : list Children;
  warned : option (list Reference)
}.

Definition element_text (e : Element) : str :=
  match e with
  | span part => rendered part
  | mark part _ => rendered part
  end.

Definition children_text (c : Children) : str :=
  match c with
  | Highlighted es => concat (map element_text es)
  | Text l => l
  end.

(** ** Library functions *)

(** [s.replace(/c/g, by)] for a pattern that matches single characters. *)
Definition replace_all (test : ascii -> bool) (by_ : str) (s : str) : str :=
  flat_map (fun c => if test c then by_ else [c]) s.

(** [sql.split(sep)] for a one-character separator. *)
Fixpoint split_on (sep : ascii) (s : str) : list str :=
  match s with
  | [] => [[]]
  | c :: s' =>
      if (c =? sep)%char then [] :: split_on sep s'
      else
        match split_on sep s' with
        | l :: ls => (c :: l) :: ls
        | [] => [[c]]
        end
  end.

(** [pieces.join(sep)]. *)
Fixpoint join (sep : str) (pieces : list str) : str :=
  match pieces with
  | [] => []
  | [x] => x
  | x :: rest => x ++ sep ++ join sep rest
  end.

Definition Groups := list (Z * list Reference).

Fixpoint group_add (k : Z) (r : Reference) (g : Groups) : Groups :=
  match g with
  | [] => [(k, [r])]
  | (k', rs) :: g' =>
      if (k =? k')%Z then (k', rs ++ [r]) :: g' else (k', rs) :: group_add k r g'
  end.

(** lodash [groupBy]: the iteratee runs on each element in order, and an
    element joins the group of its key; groups are kept in order of
    creation. *)
Fixpoint groupBy_from (g : Groups) (refs : list Reference)
    (iteratee : Reference -> completion Z) : completion Groups :=
  match refs with
  | [] => Normal g
  | r :: rest =>
      k <- iteratee r ;;
      groupBy_from (group_add k r g) rest iteratee
  end.

Definition groupBy := groupBy_from [].

Fixpoint group_get (k : Z) (g : Groups) : option (list Reference) :=
  match g with
  | [] => None
  | (k', rs) :: g' => if (k =? k')%Z then Some rs else group_get k g'
  end.

Definition is_array_index (k : Z) : bool :=
  ((0 <=? k) && (k <? 2 ^ 32 - 1))%Z.

Fixpoint insert_sorted (k : Z) (ks : list Z) : list Z :=
  match ks with
  | [] => [k]
  | k' :: ks' => if (k <=? k')%Z then k :: ks else k' :: insert_sorted k ks'
  end.

(** [Object.keys] of the grouping: array-index keys in ascending order, then
    the other keys in order of creation.  A key is the decimal text of a
    line number and [Number] reads it back, so keys are kept as numbers. *)
Definition Object_keys (g : Groups) : list Z :=
  let ks := map fst g in
  fold_right insert_sorted [] (filter is_array_index ks)
    ++ filter (fun k => negb (is_array_index k)) ks.

(** [array[index]] for a numeric index; [None] is [undefined]. *)
Definition array_get {A} (a : list A) (index : Z) : option A :=
  if (0 <=? index)%Z then nth_error a (Z.to_nat index) else None.

(** ** The component *)

Definition optimizedSnippet (snippet : str) : str :=
  replace_all is_space "\s*"
    (replace_all (Ascii.eqb ")") "\)?"
       (replace_all (Ascii.eqb "(") "\(?" snippet)).

Definition flags_gi : Flags := {| global := true; ignoreCase := true |}.
Definition flags_none : Flags := {| global := false; ignoreCase := false |}.

Section Component.

Variable E : Engine.

Definition createSnippetsRegex (snippets : list str) : completion (RE E) :=
  re_new E (("(" : str) ++ join "|" snippets ++ (")" : str)) flags_gi.

(** [lineReferences.filter(pred)] for a predicate that may throw. *)
Fixpoint filter_c (pred : Reference -> completion bool) (rs : list Reference)
  : completion (list Reference) :=
  match rs with
  | [] => Normal []
  | r :: rest =>
      b <- pred r ;;
      keep <- filter_c pred rest ;;
      Normal (if b then r :: keep else keep)
  end.

(** [new RegExp(reference.sqlSnippet).test(part)] *)
Definition snippet_test (part : Part) (reference : Reference) : completion bool :=
  R <- re_new E (sqlSnippet reference) flags_none ;;
  Normal (fst (re_test E R 0 (ToString part))).

(** The callback of [parts.map], run on the pieces in order.  [regex] has
    the global flag, so each [regex.test(part)] starts at the [lastIndex]
    the previous one left.  Returns the elements and the lists pushed on
    [referenceMatches]. *)
Fixpoint map_parts (regex : RE E) (lineReferences : list Reference)
    (lastIndex : nat) (parts : list Part)
  : completion (list Element * list (list Reference)) :=
  match parts with
  | [] => Normal ([], [])
  | part :: rest =>
      let (matched, lastIndex') := re_test E regex lastIndex (ToString part) in
      if matched then
        matchedReferences <- filter_c (snippet_test part) lineReferences ;;
        '(es, ms) <- map_parts regex lineReferences lastIndex' rest ;;
        Normal (mark part matchedReferences :: es, matchedReferences :: ms)
      else
        '(es, ms) <- map_parts regex lineReferences lastIndex' rest ;;
        Normal (span part :: es, ms)
  end.

(** The sparse array [highlights]: the entries written so far, the latest
    first. *)
Definition Highlights := list (Z * list Element).

Fixpoint highlights_get (index : Z) (h : Highlights) : option (list Element) :=
  match h with
  | [] => None
  | (i, es) :: h' => if (index =? i)%Z then Some es else highlights_get index h'
  end.

(** The body of [Object.keys(referenceGroups).forEach]. *)
Definition highlight_line (sqlArray : list str) (referenceGroups : Groups)
    (st : Highlights * list (list Reference)) (line : Z)
  : completion (Highlights * list (list Reference)) :=
  let (highlights, referenceMatches) := st in
  let lineIndex := (line - 1)%Z in
  match group_get line referenceGroups with
  | None => Throw TypeError
  | Some lineReferences =>
      let snippets := map (fun r => optimizedSnippet (sqlSnippet r)) lineReferences in
      regex <- createSnippetsRegex snippets ;;
      match array_get sqlArray lineIndex with
      | None => Throw TypeError
      | Some text =>
          let parts := re_split E regex text in
          '(es, ms) <- map_parts regex lineReferences 0 parts ;;
          Normal ((lineIndex, es) :: highlights, referenceMatches ++ ms)
      end
  end.

Fixpoint forEach {S K} (body : S -> K -> completion S) (st : S) (keys : list K)
  : completion S :=
  match keys with
  | [] => Normal st
  | k :: rest => st' <- body st k ;; forEach body st' rest
  end.

Fixpoint map_indexed {A B} (f : A -> Z -> B) (index : Z) (a : list A) : list B :=
  match a with
  | [] => []
  | x :: rest => f x index :: map_indexed f (index + 1)%Z rest
  end.

Definition includes (rs : list Reference) (r : Reference) : bool :=
  if in_dec Reference_eq_dec r rs then true else false.

(** The references [console.warn] is called with, if it is called.
    [includes] compares object identities; two references with the same
    fields fall in the same group and pass the same tests, so comparing
    fields gives the same list. *)
Definition printUnmatchedReferences (references : list Reference)
    (referenceMatches : list (list Reference)) : option (list Reference) :=
  let unmatchedReferences :=
    filter (fun reference => negb (includes (concat referenceMatches) reference))
      references in
  if (0 <? length unmatchedReferences)%nat then Some unmatchedReferences else None.

Definition has_location (reference : Reference) : bool :=
  match sqlLocation reference with
  | Some _ => true
  | None => false
  end.

(** [reference.sqlLocation.line] *)
Definition location_line (reference : Reference) : completion Z :=
  match sqlLocation reference with
  | Some loc => Normal (line loc)
  | None => Throw TypeError
  end.

(** The component.  [isDevelopment] is [env.isDevelopment]; [useMemo] only
    caches and is left out.  The result is the list of [<div>] children and
    what was passed to [console.warn]. *)
Definition SQLHighlight (isDevelopment : bool) (sql : str) (references : list Reference)
  : completion Output :=
  let sqlArray := split_on "010"%char sql in
  referenceGroups <- groupBy (filter has_location references) location_line ;;
  '(highlights, referenceMatches) <-
    forEach (highlight_line sqlArray referenceGroups) ([], [])
      (Object_keys referenceGroups) ;;
  let content :=
    map_indexed
      (fun line index =>
         match highlights_get index highlights with
         | Some es => Highlighted es
         | None => Text line
         end) 0%Z sqlArray in
  Normal {| content := content;
            warned := if isDevelopment
                      then printUnmatchedReferences references referenceMatches
                      else None |}.

End Component.

(** ** The earlier variant of the component

    It groups the references as they come, keeps the lines and their
    replacements in one array, and hands the reference object itself to
    [new RegExp], which reads it as the text [[object Object]].  Its
    [console.log] calls are left out. *)
Module Part000.

Section Component.

Variable E : Engine.

Definition snippet_test (part : Part) (snippet : Reference) : completion bool :=
  R <- re_new E "[object Object]" flags_none ;;
  Normal (fst (re_test E R 0 (ToString part))).

Fixpoint map_parts (regex : RE E) (lineReferences : list Reference)
    (lastIndex : nat) (parts : list Part) : completion (list Element) :=
  match parts with
  | [] => Normal []
  | part :: rest =>
      let (matched, lastIndex') := re_test E regex lastIndex (ToString part) in
      if matched then
        matchedReferences <- filter_c (snippet_test part) lineReferences ;;
        es <- map_parts regex lineReferences lastIndex' rest ;;
        Normal (mark part matchedReferences :: es)
      else
        es <- map_parts regex lineReferences lastIndex' rest ;;
        Normal (span part :: es)
  end.

Fixpoint array_set {A} (a : list A) (index : nat) (v : A) : list A :=
  match a, index with
  | [], _ => []
  | _ :: rest, O => v :: rest
  | x :: rest, S i => x :: array_set rest i v
  end.

Definition highlight_line (referenceGroups : Groups) (result : list Children) (line : Z)
  : completion (list Children) :=
  let index := (line - 1)%Z in
  match group_get line referenceGroups with
  | None => Throw TypeError
  | Some lineReferences =>
      let snippets := map (fun r => optimizedSnippet (sqlSnippet r)) lineReferences in
      regex <- re_new E (("(" : str) ++ join "|" snippets ++ (")" : str)) flags_gi ;;
      match array_get result index with
      | Some (Text text) =>
          let parts := re_split E regex text in
          es <- map_parts regex lineReferences 0 parts ;;
          Normal (array_set result (Z.to_nat index) (Highlighted es))
      | _ => Throw TypeError
      end
  end.

Definition SQLHighlight (sql : str) (references : list Reference)
  : completion (list Children) :=
  let sqlArray := split_on "010"%char sql in
  referenceGroups <- groupBy references location_line ;;
  forEach (highlight_line referenceGroups) (map Text sqlArray)
    (Object_keys referenceGroups).

End Component.

End Part000.

(** ** Sample references *)

Definition ref (n : Z) (snippet : string) (l : Z) : Reference :=
  {| referenceNum := n; type := "FIELD"; sqlSnippet := snippet;
     sqlLocation := Some {| line := l |} |}.

Definition ref_nowhere (n : Z) (snippet : string) : Reference :=
  {| referenceNum := n; type := "FIELD"; sqlSnippet := snippet;
     sqlLocation := None |}.

Definition tab : ascii := ascii_of_N 9.

(** ** The snippet pattern builder *)

(** The pattern text that stands for one character of a snippet. *)
Definition pattern_of_char (c : ascii) : str :=
  if (c =? "(")%char then "\(?"
  else if (c =? ")")%char then "\)?"
  else if is_space c then "\s*"
  else [c].

(** The pattern built from [snippet] alone takes the whole of [text] as one
    piece, both when splitting and when testing. *)
Definition matches_whole (snippet text : str) : Prop :=
  exists R,
    createSnippetsRegex ecma [optimizedSnippet snippet] = Normal R /\
    re_split ecma R text = [Some []; Some text; Some []] /\
    re_test ecma R 0 text = (true, length text).

(** ** Vocabulary of the statements *)

(** Every member of the group filed under [k] declares line [k]. *)
Definition keyed (g : Groups) : Prop :=
  forall k rs r, group_get k g = Some rs -> In r rs -> location_line r = Normal k.

(** The highlighted elements of line [index] come from the references
    grouped under line number [index + 1]. *)
Definition line_result (E : Engine) (sqlArray : list str) (g : Groups) (index : Z)
    (es : list Element) : Prop :=
  exists rs regex text ms,
    group_get (index + 1) g = Some rs /\
    createSnippetsRegex E (map (fun r => optimizedSnippet (sqlSnippet r)) rs)
      = Normal regex /\
    array_get sqlArray index = Some text /\
    map_parts E regex rs 0 (re_split E regex text) = Normal (es, ms).

Definition three_lines : str :=
  concat [("SELECT a" : str); ["010"%char]; ("FROM a" : str); ["010"%char];
          ("WHERE a" : str)].

(** [respects Q r]: the property [Q] of captures survives writing the
    groups of [r]. *)
Definition respects (Q : captures -> Prop) (r : regex) : Prop :=
  forall i v caps, In i (groups r) -> Q caps -> Q (set_cap i v caps).

(** A matcher calls its continuation on a suffix of its input, with
    captures that still satisfy [Q]. *)
Definition sound (Q : captures -> Prop) (mr : str -> captures -> cont -> mresult) : Prop :=
  forall s caps k res,
    Q caps -> mr s caps k = Some res ->
    exists w s' caps', s = w ++ s' /\ Q caps' /\ k s' caps' = Some res.

(** A pattern that is one capturing group around a body without groups:
    the only capture of an attempt is the text it matched. *)
Definition outer_group_only (R : RegExpObject) : Prop :=
  exists body, groups body = [] /\ re_tree R = Group 0 body /\ re_groups R = 1%nat.

(** [t] occurs in [S] as a contiguous piece. *)
Definition occurs (t S : str) : Prop := exists u v, S = u ++ t ++ v.

(** The characters that the component leaves a meaning of their own in a
    pattern and that change what a term is: the backslash, the quantifiers,
    brackets, braces and anchors. *)
Definition special (c : ascii) : bool :=
  existsb (Ascii.eqb c) ("\*+?[]{}^$" : str).

(** A snippet is plain when it has no special character: letters, digits,
    punctuation (the dot and the bar included), whitespace and parentheses
    only. *)
Definition plain (snippet : str) : bool :=
  forallb (fun c => negb (special c)) snippet.

(** The characters of a plain snippet that a pattern does not read as
    themselves. *)
Definition structural (c : ascii) : bool :=
  existsb (Ascii.eqb c) ("().|" : str).

(** A literal snippet, read as a pattern, stands for its own text. *)
Definition literal (snippet : str) : bool :=
  forallb (fun c => negb (special c) && negb (structural c)) snippet.

Definition starts_q (p : str) : bool :=
  match p with
  | x :: _ => (x =? "?")%char
  | [] => false
  end.

Definition tcons_all (ts : list token) (r : parse_result (list token)) :=
  fold_right tcons r ts.

(** Token lists made of atoms without groups, each with at most one
    quantifier right after it, and of bars. *)
Inductive units : list token -> Prop :=
| units_nil : units []
| units_atom a ts : groups a = [] -> units ts -> units (TAtom a :: ts)
| units_quantified a q g ts :
    groups a = [] -> units ts -> units (TAtom a :: TQuant q g :: ts)
| units_bar ts : units ts -> units (TBar :: ts).

Definition group_free (rs : list regex) : Prop := Forall (fun r => groups r = []) rs.

Definition group_free_frame (f : frame) : Prop :=
  group_free (f_alts f) /\ group_free (f_terms f).

(** Every located reference of the list has a plain snippet. *)
Definition plain_references (refs : list Reference) : bool :=
  forallb (fun r => plain (sqlSnippet r)) (filter has_location refs).

Fixpoint prefixb (a s : str) : bool :=
  match a, s with
  | [], _ => true
  | x :: a', y :: s' => (x =? y)%char && prefixb a' s'
  | _ :: _, [] => false
  end.

(** A decision procedure for [occurs]. *)
Fixpoint occursb (a s : str) : bool :=
  prefixb a s ||
  match s with
  | [] => false
  | _ :: s' => occursb a s'
  end.

(** ** Vocabulary of the further properties *)

Definition newline : ascii := "010"%char.

(** The reference has a location and it names line [k]. *)
Definition declares (k : Z) (r : Reference) : bool :=
  match sqlLocation r with
  | Some loc => (line loc =? k)%Z
  | None => false
  end.

(** The association test of the component returns [true] on the piece. *)
Definition passes (E : Engine) (part : Part) (r : Reference) : bool :=
  match snippet_test E part r with
  | Normal true => true
  | _ => false
  end.

Definition element_tags (e : Element) : list (list Reference) :=
  match e with
  | mark _ tags => [tags]
  | span _ => []
  end.

(** The tag lists of the [<mark>] elements of a line, in order. *)
Definition marks_tags (es : list Element) : list (list Reference) :=
  flat_map element_tags es.

Definition children_tags (c : Children) : list Reference :=
  match c with
  | Highlighted es => concat (marks_tags es)
  | Text _ => []
  end.

(** Every reference shown as a tag somewhere in the rendered lines. *)
Definition all_tags (lines : list Children) : list Reference :=
  flat_map children_tags lines.

(** What the loop keeps: the lists pushed on [referenceMatches] are the tag
    lists of the marks stored in [highlights], and every stored index is an
    index of [sqlArray]. *)
Definition matches_of_highlights (sqlArray : list str)
    (st : Highlights * list (list Reference)) : Prop :=
  (forall tags, In tags (snd st) <->
                exists i es, In (i, es) (fst st) /\ In tags (marks_tags es)) /\
  (forall i es, In (i, es) (fst st) ->
                (0 <= i < Z.of_nat (length sqlArray))%Z).

(** The characters [optimizedSnippet] rewrites. *)
Definition rewritten (c : ascii) : bool :=
  (c =? "(")%char || (c =? ")")%char || is_space c.

(** A snippet with every whitespace character turned into a space. *)
Definition blank (snippet : str) : str :=
  map (fun c => if is_space c then " "%char else c) snippet.

Definition quantifier_char (c : ascii) : bool :=
  (c =? "*")%char || (c =? "+")%char.

(** Text made of plain characters and of the quantifiers "*" and "+". *)
Definition tokenizable (text : str) : bool :=
  forallb (fun c => negb (special c) || quantifier_char c) text.

(** The tokens that the pattern text of one such character is read as. *)
Definition tok (c : ascii) : list token :=
  if (c =? "(")%char then [TAtom (Chr "("%char); TQuant QOpt true]
  else if (c =? ")")%char then [TAtom (Chr ")"%char); TQuant QOpt true]
  else if is_space c then [TAtom (Class false CSpace); TQuant QStar true]
  else if (c =? "*")%char then [TQuant QStar true]
  else if (c =? "+")%char then [TQuant QPlus true]
  else if (c =? ".")%char then [TAtom Any]
  else if (c =? "|")%char then [TBar]
  else [TAtom (Chr c)].

Definition flat_kind (t : token) : Prop :=
  match t with
  | TAtom _ | TBar | TQuant _ _ => True
  | TOpen | TOpenNC | TClose => False
  end.

Definition is_some {A} (o : option A) : bool :=
  match o with
  | Some _ => true
  | None => false
  end.

(** The pattern that matches the text [w] and nothing else. *)
Definition lits (w : str) : regex := mkSeq (map Chr w).

Definition atoms (w : str) : list token := map (fun c => TAtom (Chr c)) w.

(** The characters of the text an object is turned into. *)
Definition object_letters : str := "object Object".

(** ** Vocabulary of unmatched references *)









Lemma replace_all_app test by_ a b :
  replace_all test by_ (a ++ b) = replace_all test by_ a ++ replace_all test by_ b.
Proof. unfold replace_all. apply flat_map_app. Qed.

Lemma optimizedSnippet_app a b :
  optimizedSnippet (a ++ b) = optimizedSnippet a ++ optimizedSnippet b.
Proof. unfold optimizedSnippet. now rewrite !replace_all_app. Qed.

Lemma optimizedSnippet_char c : optimizedSnippet [c] = pattern_of_char c.
Proof. destruct c as [[|] [|] [|] [|] [|] [|] [|] [|]]; vm_compute; reflexivity. Qed.

Lemma optimizedSnippet_flat_map snippet :
  optimizedSnippet snippet = flat_map pattern_of_char snippet.
Proof.
  induction snippet as [|c snippet IH]; [reflexivity|].
  change (c :: snippet) with ([c] ++ snippet).
  rewrite optimizedSnippet_app, optimizedSnippet_char, IH. reflexivity.
Qed.

(** C4. The pattern built from a snippet is the snippet in which each "("
    has become an optional escaped "(", each ")" an optional escaped ")"
    and each whitespace character "zero or more whitespace", the three
    replacements being made one after the other in that order; the pattern
    of "a b" matches "a    b" and "a<TAB>b", and the pattern of "f(x)"
    matches "f(x)" and "fx". *)
Theorem C4_snippet_pattern_builder :
  (forall snippet,
      optimizedSnippet snippet =
        replace_all is_space "\s*"
          (replace_all (Ascii.eqb ")") "\)?"
             (replace_all (Ascii.eqb "(") "\(?" snippet)) /\
      optimizedSnippet snippet = flat_map pattern_of_char snippet) /\
  matches_whole "a b" "a    b" /\
  matches_whole "a b" (("a" : str) ++ [tab] ++ ("b" : str)) /\
  matches_whole "f(x)" "f(x)" /\
  matches_whole "f(x)" "fx".
Proof.
  split; [|repeat split].
  - intro snippet. split; [reflexivity | apply optimizedSnippet_flat_map].
  - eexists. split; [vm_compute; reflexivity | split; vm_compute; reflexivity].
  - eexists. split; [vm_compute; reflexivity | split; vm_compute; reflexivity].
  - eexists. split; [vm_compute; reflexivity | split; vm_compute; reflexivity].
  - eexists. split; [vm_compute; reflexivity | split; vm_compute; reflexivity].
Qed.

(** ** Grouping and iteration *)

Lemma filter_idem {A} (f : A -> bool) (l : list A) : filter f (filter f l) = filter f l.
Proof.
  induction l as [|x l IH]; simpl; [reflexivity|].
  destruct (f x) eqn:Hx; simpl; [rewrite Hx, IH|]; auto.
Qed.

Lemma group_get_add k' k r g :
  group_get k' (group_add k r g) =
    if (k' =? k)%Z
    then Some (match group_get k g with Some rs => rs ++ [r] | None => [r] end)
    else group_get k' g.
Proof.
  induction g as [|[k0 rs] g IH]; simpl.
  - destruct (k' =? k)%Z; reflexivity.
  - destruct (k =? k0)%Z eqn:Hk; simpl.
    + apply Z.eqb_eq in Hk. subst k0.
      destruct (k' =? k)%Z; reflexivity.
    + destruct (k' =? k0)%Z eqn:Hk'; [|exact IH].
      apply Z.eqb_eq in Hk'. subst k0.
      rewrite Z.eqb_sym, Hk. reflexivity.
Qed.

Lemma keyed_add k r g : keyed g -> location_line r = Normal k -> keyed (group_add k r g).
Proof.
  intros Hg Hr k' rs r' Hget Hin.
  rewrite group_get_add in Hget.
  destruct (k' =? k)%Z eqn:Hk.
  - apply Z.eqb_eq in Hk. subst k'. inversion Hget; subst rs; clear Hget.
    destruct (group_get k g) as [rs0|] eqn:Hg0.
    + apply in_app_or in Hin. destruct Hin as [Hin|[->|[]]]; eauto.
    + destruct Hin as [->|[]]. exact Hr.
  - eauto.
Qed.

Lemma groupBy_from_keyed refs : forall g g',
  keyed g -> groupBy_from g refs location_line = Normal g' -> keyed g'.
Proof.
  induction refs as [|r refs IH]; simpl; intros g g' Hg H.
  - inversion H; subst; exact Hg.
  - destruct (location_line r) as [k| |] eqn:Hr; simpl in H; try discriminate.
    eapply IH; [|exact H]. apply keyed_add; assumption.
Qed.

Lemma groupBy_keyed refs g : groupBy refs location_line = Normal g -> keyed g.
Proof.
  apply groupBy_from_keyed. intros k rs r H. discriminate H.
Qed.

Lemma location_line_inv r k :
  location_line r = Normal k -> exists loc, sqlLocation r = Some loc /\ line loc = k.
Proof.
  unfold location_line. destruct (sqlLocation r) as [loc|]; intro H; inversion H.
  eauto.
Qed.

(** Grouping stops at the first reference without a location. *)
Lemma groupBy_from_missing refs : forall g,
  Exists (fun r => sqlLocation r = None) refs ->
  groupBy_from g refs location_line = Throw TypeError.
Proof.
  induction refs as [|r refs IH]; intros g Hex.
  - inversion Hex.
  - simpl. unfold location_line at 1.
    destruct (sqlLocation r) as [loc|] eqn:Hr; simpl; [|reflexivity].
    apply IH. inversion Hex; subst; [congruence | assumption].
Qed.



Lemma map_indexed_nth {A B} (f : A -> Z -> B) (a : list A) : forall start i,
  nth_error (map_indexed f start a) i =
    option_map (fun x => f x (start + Z.of_nat i)%Z) (nth_error a i).
Proof.
  induction a as [|x a IH]; intros start i.
  - destruct i; reflexivity.
  - destruct i as [|i]; simpl.
    + now rewrite Z.add_0_r.
    + rewrite IH. destruct (nth_error a i); simpl; [|reflexivity].
      do 2 f_equal. lia.
Qed.

Lemma map_indexed_text (f : str -> Z -> Children) (a : list str) : forall start,
  (forall i x, nth_error a i = Some x ->
               children_text (f x (start + Z.of_nat i)%Z) = x) ->
  map children_text (map_indexed f start a) = a.
Proof.
  induction a as [|x a IH]; intros start H; simpl; [reflexivity|].
  f_equal.
  - specialize (H O x eq_refl). now rewrite Z.add_0_r in H.
  - apply IH. intros i y Hy. specialize (H (S i) y Hy).
    replace (start + 1 + Z.of_nat i)%Z with (start + Z.of_nat (S i))%Z by lia.
    exact H.
Qed.

Section Plumbing.

Variable E : Engine.

Lemma filter_c_spec (pred : Reference -> completion bool) rs : forall tags,
  filter_c pred rs = Normal tags ->
  forall r, In r tags -> In r rs /\ pred r = Normal true.
Proof.
  induction rs as [|r0 rs IH]; simpl; intros tags H r Hin.
  - inversion H; subst. destruct Hin.
  - destruct (pred r0) as [b| |] eqn:Hp; simpl in H; try discriminate.
    destruct (filter_c pred rs) as [keep| |]; simpl in H; try discriminate.
    inversion H; subst; clear H.
    destruct b.
    + destruct Hin as [->|Hin]; [auto|].
      destruct (IH keep eq_refl r Hin); auto.
    + destruct (IH keep eq_refl r Hin); auto.
Qed.

(** What [parts.map] returns: one element per piece, with the text of the
    piece; the tags of a [<mark>] are the references of the line whose own
    pattern passes on that piece. *)
Lemma map_parts_spec (regex : RE E) rs : forall parts lastIndex es ms,
  map_parts E regex rs lastIndex parts = Normal (es, ms) ->
  map element_text es = map rendered parts /\
  (forall part tags, In (mark part tags) es ->
     In part parts /\ filter_c (snippet_test E part) rs = Normal tags).
Proof.
  induction parts as [|part parts IH]; simpl; intros lastIndex es ms H.
  - inversion H; subst. split; [reflexivity | intros ? ? []].
  - destruct (re_test E regex lastIndex (ToString part)) as [matched lastIndex'].
    destruct matched.
    + destruct (filter_c (snippet_test E part) rs) as [tags0| |] eqn:Hf;
        simpl in H; try discriminate.
      destruct (map_parts E regex rs lastIndex' parts) as [[es0 ms0]| |] eqn:Hm;
        simpl in H; try discriminate.
      inversion H; subst; clear H.
      destruct (IH _ _ _ Hm) as [Htxt Hmarks].
      split; [simpl; now rewrite Htxt|].
      intros p tags [Heq|Hin].
      * inversion Heq; subst. auto.
      * destruct (Hmarks _ _ Hin); auto.
    + destruct (map_parts E regex rs lastIndex' parts) as [[es0 ms0]| |] eqn:Hm;
        simpl in H; try discriminate.
      inversion H; subst; clear H.
      destruct (IH _ _ _ Hm) as [Htxt Hmarks].
      split; [simpl; now rewrite Htxt|].
      intros p tags [Heq|Hin]; [discriminate|].
      destruct (Hmarks _ _ Hin); auto.
Qed.

Lemma forEach_cons {S K} (body : S -> K -> completion S) st k rest :
  forEach body st (k :: rest) = bind (body st k) (fun st' => forEach body st' rest).
Proof. reflexivity. Qed.

Lemma forEach_highlights sqlArray g keys : forall h ms h' ms',
  forEach (highlight_line E sqlArray g) (h, ms) keys = Normal (h', ms') ->
  forall index es,
    highlights_get index h' = Some es ->
    highlights_get index h = Some es \/ line_result E sqlArray g index es.
Proof.
  induction keys as [|k keys IH]; intros h ms h' ms' H index es Hget.
  - inversion H; subst. auto.
  - rewrite forEach_cons in H.
    destruct (highlight_line E sqlArray g (h, ms) k) as [[h1 ms1]| |] eqn:Hk;
      simpl in H; try discriminate.
    destruct (IH _ _ _ _ H _ _ Hget) as [Hold|Hnew]; [|auto].
    unfold highlight_line in Hk.
    destruct (group_get k g) as [rs|] eqn:Hg; try discriminate.
    destruct (createSnippetsRegex E _) as [regex| |] eqn:Hre; simpl in Hk;
      try discriminate.
    destruct (array_get sqlArray (k - 1)) as [text|] eqn:Ha; try discriminate.
    destruct (map_parts E regex rs 0 (re_split E regex text)) as [[es0 ms0]| |] eqn:Hm;
      simpl in Hk; try discriminate.
    inversion Hk; subst; clear Hk.
    simpl in Hold. destruct (index =? k - 1)%Z eqn:Hi; [|auto].
    apply Z.eqb_eq in Hi. subst index. inversion Hold; subst.
    right. exists rs, regex, text, ms0.
    replace (k - 1 + 1)%Z with k by lia. auto.
Qed.

(** The steps of a run that returns. *)
Lemma SQLHighlight_inv dev sql refs out :
  SQLHighlight E dev sql refs = Normal out ->
  exists g h ms,
    groupBy (filter has_location refs) location_line = Normal g /\
    forEach (highlight_line E (split_on "010"%char sql) g) ([], []) (Object_keys g)
      = Normal (h, ms) /\
    content out =
      map_indexed
        (fun line index =>
           match highlights_get index h with
           | Some es => Highlighted es
           | None => Text line
           end) 0%Z (split_on "010"%char sql) /\
    warned out = if dev then printUnmatchedReferences refs ms else None.
Proof.
  unfold SQLHighlight. intro H.
  destruct (groupBy (filter has_location refs) location_line) as [g| |];
    simpl in H; try discriminate.
  destruct (forEach _ _ _) as [[h ms]| |] eqn:Hf; simpl in H; try discriminate.
  inversion H; subst; clear H. exists g, h, ms. simpl. auto.
Qed.

(** A highlighted line of the output, traced back to its group. *)
Lemma highlighted_line dev sql refs out i es :
  SQLHighlight E dev sql refs = Normal out ->
  nth_error (content out) i = Some (Highlighted es) ->
  exists g,
    groupBy (filter has_location refs) location_line = Normal g /\
    line_result E (split_on "010"%char sql) g (Z.of_nat i) es.
Proof.
  intros H Hnth.
  destruct (SQLHighlight_inv _ _ _ _ H) as (g & h & ms & Hg & Hf & Hc & _).
  exists g. split; [exact Hg|].
  rewrite Hc, map_indexed_nth in Hnth.
  destruct (nth_error (split_on "010"%char sql) i) as [l|]; simpl in Hnth;
    [|discriminate].
  simpl in Hnth.
  destruct (highlights_get (Z.of_nat i) h) as [es0|] eqn:Hh; inversion Hnth; subst.
  destruct (forEach_highlights _ _ _ _ _ _ _ Hf _ _ Hh) as [Hold|Hnew]; [discriminate|].
  exact Hnew.
Qed.

End Plumbing.

(** ** Line scoping and references without a location *)

(** A reference attached to a [<mark>] of line [i] (counted from 0)
    declares line number [i + 1]. *)
Lemma attached_declares_line (E : Engine) dev sql refs out i es part tags r :
  SQLHighlight E dev sql refs = Normal out ->
  nth_error (content out) i = Some (Highlighted es) ->
  In (mark part tags) es ->
  In r tags ->
  exists loc, sqlLocation r = Some loc /\ line loc = (Z.of_nat i + 1)%Z.
Proof.
  intros H Hnth Hmark Hr.
  destruct (highlighted_line _ _ _ _ _ _ _ H Hnth) as (g & Hg & Hline).
  destruct Hline as (rs & regex & text & ms & Hget & _ & _ & Hparts).
  destruct (map_parts_spec _ _ _ _ _ _ _ Hparts) as [_ Hmarks].
  destruct (Hmarks _ _ Hmark) as [_ Hf].
  destruct (filter_c_spec _ _ _ Hf _ Hr) as [Hin _].
  apply location_line_inv. eapply groupBy_keyed; eauto.
Qed.

(** C5. Line scoping: whenever the component returns, a reference found
    among the tags of a matched segment on the line with index [i]
    (counted from 0) declares line number [i + 1]; so a reference declared
    on line 2 is attached to no segment of line 1 or line 3. *)
Theorem C5_line_scoping (E : Engine) dev sql refs out i es part tags r :
  SQLHighlight E dev sql refs = Normal out ->
  nth_error (content out) i = Some (Highlighted es) ->
  In (mark part tags) es ->
  In r tags ->
  exists loc, sqlLocation r = Some loc /\ line loc = (Z.of_nat i + 1)%Z.
Proof. apply attached_declares_line. Qed.

Lemma C5_line_scoping_witness :
  exists loc, sqlLocation (ref 7 "a" 2) = Some loc /\ line loc = (Z.of_nat 1 + 1)%Z.
Proof.
  eapply (C5_line_scoping ecma false three_lines [ref 7 "a" 2] _ 1%nat _
            (Some ("a" : str)) [ref 7 "a" 2] (ref 7 "a" 2)).
  - vm_compute. reflexivity.
  - vm_compute. reflexivity.
  - vm_compute. right. left. reflexivity.
  - left. reflexivity.
Defined.

(** The snippet "a" occurs on all three lines and is declared on line 2:
    only line 2 is highlighted. *)
Example line_scoping_three_lines :
  cmap content (SQLHighlight ecma false three_lines [ref 7 "a" 2]) =
    Normal [Text ("SELECT a" : str);
            Highlighted [span (Some ("FROM " : str));
                         mark (Some ("a" : str)) [ref 7 "a" 2];
                         span (Some [])];
            Text ("WHERE a" : str)].
Proof. vm_compute. reflexivity. Qed.

(** C6. References without [sqlLocation] are left out before anything else
    is done: the lines rendered for a references list are those rendered
    for the list without such references (a thrown error included, so they
    cause none); a reference attached to a segment always has a location;
    and when no reference has one the component returns every line as
    plain text. *)
Theorem C6_missing_location_excluded (E : Engine) dev sql refs :
  cmap content (SQLHighlight E dev sql refs) =
    cmap content (SQLHighlight E dev sql (filter has_location refs)) /\
  (forall out i es part tags r,
      SQLHighlight E dev sql refs = Normal out ->
      nth_error (content out) i = Some (Highlighted es) ->
      In (mark part tags) es ->
      In r tags ->
      sqlLocation r <> None) /\
  (Forall (fun r => sqlLocation r = None) refs ->
   exists out,
     SQLHighlight E dev sql refs = Normal out /\
     content out = map Text (split_on "010"%char sql)).
Proof.
  split; [|split].
  - unfold SQLHighlight. rewrite filter_idem.
    destruct (groupBy (filter has_location refs) location_line) as [g| |];
      simpl; try reflexivity.
    destruct (forEach _ _ _) as [[h ms]| |]; reflexivity.
  - intros out i es part tags r H Hnth Hmark Hr.
    destruct (attached_declares_line _ _ _ _ _ _ _ _ _ _ H Hnth Hmark Hr) as (loc & Hloc & _).
    congruence.
  - intro Hall.
    assert (Hnil : filter has_location refs = []).
    { induction Hall as [|r refs Hr _ IH]; simpl; [reflexivity|].
      unfold has_location at 1. rewrite Hr. exact IH. }
    unfold SQLHighlight. rewrite Hnil. simpl.
    eexists. split; [reflexivity|]. simpl.
    generalize 0%Z. induction (split_on "010"%char sql) as [|l ls IH]; intro z;
      simpl; [reflexivity|]. now rewrite IH.
Qed.

Lemma C6_missing_location_excluded_witness :
  exists out,
    SQLHighlight ecma true "SELECT a" [ref_nowhere 1 "a"] = Normal out /\
    content out = map Text (split_on "010"%char "SELECT a").
Proof.
  apply (proj2 (proj2 (C6_missing_location_excluded ecma true "SELECT a"
                         [ref_nowhere 1 "a"]))).
  repeat constructor.
Defined.

(** C10. The earlier variant groups the references without filtering them
    first: as soon as one reference of the list has no [sqlLocation], the
    variant throws a TypeError (reading [line] of [undefined]). *)
Theorem C10_variant_throws_on_missing_location (E : Engine) sql refs :
  Exists (fun r => sqlLocation r = None) refs ->
  Part000.SQLHighlight E sql refs = Throw TypeError.
Proof.
  intro Hex. unfold Part000.SQLHighlight, groupBy.
  rewrite (groupBy_from_missing _ _ Hex). reflexivity.
Qed.

Lemma C10_variant_throws_on_missing_location_witness :
  Part000.SQLHighlight ecma "SELECT a FROM t" [ref 1 "a" 1; ref_nowhere 2 "t"]
    = Throw TypeError.
Proof.
  apply C10_variant_throws_on_missing_location.
  apply Exists_cons_tl. apply Exists_cons_hd. reflexivity.
Defined.

(** ** Line numbers outside the text *)

Lemma In_insert_sorted k x ks : In x (insert_sorted k ks) <-> x = k \/ In x ks.
Proof.
  induction ks as [|k' ks IH]; simpl.
  - intuition.
  - destruct (k <=? k')%Z; simpl; [intuition|]. rewrite IH. intuition.
Qed.

Lemma In_Object_keys g k : In k (map fst g) -> In k (Object_keys g).
Proof.
  intro H. unfold Object_keys. apply in_or_app.
  destruct (is_array_index k) eqn:Hk.
  - left.
    assert (Hf : In k (filter is_array_index (map fst g))) by (apply filter_In; auto).
    revert Hf. generalize (filter is_array_index (map fst g)).
    induction l as [|x l IH]; simpl; [auto|].
    intros [->|Hin]; apply In_insert_sorted; auto.
  - right. apply filter_In. rewrite Hk. auto.
Qed.

Lemma group_get_key g k rs : group_get k g = Some rs -> In k (map fst g).
Proof.
  induction g as [|[k' rs'] g IH]; simpl; [discriminate|].
  destruct (k =? k')%Z eqn:Hk; [|auto].
  apply Z.eqb_eq in Hk. auto.
Qed.

Lemma groupBy_from_keeps refs : forall g g' k rs,
  groupBy_from g refs location_line = Normal g' ->
  group_get k g = Some rs ->
  exists rs', group_get k g' = Some rs'.
Proof.
  induction refs as [|r refs IH]; simpl; intros g g' k rs H Hget.
  - inversion H; subst. eauto.
  - destruct (location_line r) as [k0| |]; simpl in H; try discriminate.
    assert (Hadd : exists rs1, group_get k (group_add k0 r g) = Some rs1).
    { rewrite group_get_add. destruct (k =? k0)%Z; eauto. }
    destruct Hadd as [rs1 Hrs1]. eapply IH; eauto.
Qed.

Lemma groupBy_from_key refs : forall g g' r k,
  groupBy_from g refs location_line = Normal g' ->
  In r refs -> location_line r = Normal k ->
  exists rs, group_get k g' = Some rs.
Proof.
  induction refs as [|r0 refs IH]; simpl; intros g g' r k H Hin Hr; [destruct Hin|].
  destruct (location_line r0) as [k0| |] eqn:Hr0; simpl in H; try discriminate.
  destruct Hin as [->|Hin]; [|eapply IH; eauto].
  assert (k0 = k) by congruence. subst k0.
  eapply groupBy_from_keeps; [exact H|].
  rewrite group_get_add, Z.eqb_refl. reflexivity.
Qed.

Lemma forEach_reaches {S K} (body : S -> K -> completion S) keys : forall st st' k,
  forEach body st keys = Normal st' -> In k keys ->
  exists st0 st1, body st0 k = Normal st1.
Proof.
  induction keys as [|k0 keys IH]; intros st st' k H Hin; [destruct Hin|].
  rewrite forEach_cons in H.
  destruct (body st k0) as [st1| |] eqn:Hb; simpl in H; try discriminate.
  destruct Hin as [->|Hin]; eauto.
Qed.

(** Whatever the engine, a located reference whose line number is outside
    the lines of [sql] keeps the component from returning: the line it
    names is read from [sqlArray] and is [undefined]. *)
Lemma out_of_range_never_returns (E : Engine) dev sql refs r loc :
  In r refs ->
  sqlLocation r = Some loc ->
  (line loc < 1 \/ Z.of_nat (length (split_on "010"%char sql)) < line loc)%Z ->
  forall out, SQLHighlight E dev sql refs <> Normal out.
Proof.
  intros Hin Hloc Hrange out H.
  destruct (SQLHighlight_inv _ _ _ _ _ H) as (g & h & ms & Hg & Hf & _).
  assert (Hr : In r (filter has_location refs)).
  { apply filter_In. unfold has_location. rewrite Hloc. auto. }
  assert (Hline : location_line r = Normal (line loc)).
  { unfold location_line. now rewrite Hloc. }
  destruct (groupBy_from_key _ _ _ _ _ Hg Hr Hline) as [rs Hrs].
  apply group_get_key, In_Object_keys in Hrs.
  destruct (forEach_reaches _ _ _ _ _ Hf Hrs) as ([h0 ms0] & st1 & Hbody).
  unfold highlight_line in Hbody.
  destruct (group_get (line loc) g); [|discriminate].
  destruct (createSnippetsRegex E _) as [regex| |]; simpl in Hbody; try discriminate.
  destruct (array_get (split_on "010"%char sql) (line loc - 1)) as [text|] eqn:Ha;
    [|discriminate].
  unfold array_get in Ha.
  destruct (0 <=? line loc - 1)%Z eqn:Hpos; [|discriminate].
  apply Z.leb_le in Hpos.
  assert (Hlt : (Z.to_nat (line loc - 1) < length (split_on "010"%char sql))%nat).
  { apply nth_error_Some. congruence. }
  lia.
Qed.

(** C3.  The code at the failing input: a reference that declares line 2
    of a one-line text, or line 0, makes the component throw a TypeError
    instead of being passed over. *)
Theorem C3_out_of_range_line_throws :
  SQLHighlight ecma false "SELECT a" [ref 1 "a" 2] = Throw TypeError /\
  SQLHighlight ecma false "SELECT a" [ref 1 "a" 0] = Throw TypeError /\
  SQLHighlight ecma false "SELECT a" [ref 1 "a" 1; ref 2 "a" 2] = Throw TypeError.
Proof. repeat split; vm_compute; reflexivity. Qed.

(** ** The matcher consumes a prefix of its input *)

Module MatcherFacts.

Section Invariant.

(** [Q] is a property of captures that survives writing the groups of the
    pattern at hand. *)
Variable Q : captures -> Prop.
Variable ic : bool.

Lemma respects_clear r caps : respects Q r -> Q caps -> Q (clear r caps).
Proof.
  unfold respects, clear. intros Hr Hq.
  assert (H : forall l, incl l (groups r) ->
                        Q (fold_right (fun i cs => set_cap i None cs) caps l)).
  { induction l as [|i l IH]; simpl; intro Hl; [exact Hq|].
    apply Hr; [apply Hl; left; reflexivity|].
    apply IH. intros x Hx. apply Hl. right. exact Hx. }
  apply H. apply incl_refl.
Qed.

Lemma one_sound test : sound Q (one test).
Proof.
  intros s caps k res Hq H. unfold one in H.
  destruct s as [|x s']; [discriminate|].
  destruct (test x); [|discriminate].
  exists [x], s', caps. auto.
Qed.

Lemma star_sound mr clr greedy k :
  sound Q mr -> (forall caps, Q caps -> Q (clr caps)) ->
  forall fuel s caps res,
    Q caps -> star mr clr greedy k fuel s caps = Some res ->
    exists w s' caps', s = w ++ s' /\ Q caps' /\ k s' caps' = Some res.
Proof.
  intros Hmr Hclr.
  induction fuel as [|fuel IH]; simpl; intros s caps res Hq H.
  - exists [], s, caps. auto.
  - assert (Hagain : forall res0,
      mr s (clr caps)
         (fun s' caps' =>
            if (length s' <? length s)%nat
            then star mr clr greedy k fuel s' caps' else None) = Some res0 ->
      exists w s' caps', s = w ++ s' /\ Q caps' /\ k s' caps' = Some res0).
    { intros res0 H0.
      destruct (Hmr _ _ _ _ (Hclr _ Hq) H0) as (w1 & s1 & caps1 & Hs & Hq1 & Hk).
      destruct (length s1 <? length s)%nat; [|discriminate].
      destruct (IH _ _ _ Hq1 Hk) as (w2 & s2 & caps2 & Hs2 & Hq2 & Hk2).
      exists (w1 ++ w2), s2, caps2. subst. rewrite <- app_assoc. auto. }
    destruct greedy; unfold orelse in H.
    + destruct (mr s (clr caps) _) as [res0|] eqn:Ha.
      * inversion H; subst. apply Hagain. reflexivity.
      * exists [], s, caps. auto.
    + destruct (k s caps) as [res0|] eqn:Hk.
      * inversion H; subst. exists [], s, caps. auto.
      * apply Hagain. exact H.
Qed.

Lemma m_sound r : respects Q r -> sound Q (m ic r).
Proof.
  induction r as [|c| |neg cl|cs|r1 IH1 r2 IH2|r1 IH1 r2 IH2|q greedy r1 IH1|i r1 IH1];
    intros Hr.
  - intros s caps k res Hq H. exists [], s, caps. auto.
  - apply one_sound.
  - apply one_sound.
  - apply one_sound.
  - apply one_sound.
  - assert (H1 : respects Q r1).
    { intros i v caps Hi. apply Hr. simpl. apply in_or_app. auto. }
    assert (H2 : respects Q r2).
    { intros i v caps Hi. apply Hr. simpl. apply in_or_app. auto. }
    intros s caps k res Hq H. simpl in H.
    destruct (IH1 H1 _ _ _ _ Hq H) as (w1 & s1 & caps1 & Hs & Hq1 & Hk).
    destruct (IH2 H2 _ _ _ _ Hq1 Hk) as (w2 & s2 & caps2 & Hs2 & Hq2 & Hk2).
    exists (w1 ++ w2), s2, caps2. subst. rewrite <- app_assoc. auto.
  - assert (H1 : respects Q r1).
    { intros i v caps Hi. apply Hr. simpl. apply in_or_app. auto. }
    assert (H2 : respects Q r2).
    { intros i v caps Hi. apply Hr. simpl. apply in_or_app. auto. }
    intros s caps k res Hq H. simpl in H. unfold orelse in H.
    destruct (m ic r1 s caps k) as [res0|] eqn:Ha.
    + inversion H; subst. apply (IH1 H1 _ _ _ _ Hq Ha).
    + apply (IH2 H2 _ _ _ _ Hq H).
  - assert (H1 : respects Q r1) by exact Hr.
    specialize (IH1 H1).
    assert (Hclr : forall caps, Q caps -> Q (clear r1 caps)).
    { intros caps. apply respects_clear. exact H1. }
    intros s caps k res Hq H.
    destruct q; simpl in H.
    + apply (star_sound _ _ _ _ IH1 Hclr _ _ _ _ Hq H).
    + destruct (IH1 _ _ _ _ (Hclr _ Hq) H) as (w1 & s1 & caps1 & Hs & Hq1 & Hk).
      destruct (star_sound _ _ _ _ IH1 Hclr _ _ _ _ Hq1 Hk)
        as (w2 & s2 & caps2 & Hs2 & Hq2 & Hk2).
      exists (w1 ++ w2), s2, caps2. subst. rewrite <- app_assoc. auto.
    + assert (Honce : forall res0,
        m ic r1 s (clear r1 caps)
          (fun s' caps' => if (length s' <? length s)%nat then k s' caps' else None)
          = Some res0 ->
        exists w s' caps', s = w ++ s' /\ Q caps' /\ k s' caps' = Some res0).
      { intros res0 H0.
        destruct (IH1 _ _ _ _ (Hclr _ Hq) H0) as (w1 & s1 & caps1 & Hs & Hq1 & Hk).
        destruct (length s1 <? length s)%nat; [|discriminate].
        exists w1, s1, caps1. auto. }
      destruct greedy; unfold orelse in H.
      * destruct (m ic r1 s (clear r1 caps) _) as [res0|] eqn:Ha.
        -- inversion H; subst. apply Honce. reflexivity.
        -- exists [], s, caps. auto.
      * destruct (k s caps) as [res0|] eqn:Hk.
        -- inversion H; subst. exists [], s, caps. auto.
        -- apply Honce. exact H.
  - assert (H1 : respects Q r1).
    { intros j v caps Hj. apply Hr. simpl. auto. }
    intros s caps k res Hq H. simpl in H.
    destruct (IH1 H1 _ _ _ _ Hq H) as (w1 & s1 & caps1 & Hs & Hq1 & Hk).
    exists w1, s1, (set_cap i (Some (consumed s s1)) caps1).
    split; [exact Hs|]. split; [|exact Hk].
    apply Hr; [simpl; auto | exact Hq1].
Qed.

End Invariant.

Lemma consumed_app w s' : consumed (w ++ s') s' = w.
Proof.
  unfold consumed. rewrite length_app.
  replace (length w + length s' - length s')%nat with (length w) by lia.
  rewrite firstn_app, Nat.sub_diag, firstn_all. simpl. apply app_nil_r.
Qed.

(** An attempt ends inside the input. *)
Lemma match_at_end R size s e caps :
  match_at R size s = Some (e, caps) ->
  exists w s', s = w ++ s' /\ e = (size - length s')%nat.
Proof.
  unfold match_at. intro H.
  destruct (m _ _ _ _ _) as [[s1 caps1]|] eqn:Hm; [|discriminate].
  inversion H; subst; clear H.
  destruct (m_sound (fun _ => True) (ignoreCase (re_flags R)) (re_tree R))
    with (s := s) (caps := repeat (@None str) (re_groups R))
         (k := fun (s' : str) (caps : captures) => Some (s', caps)) (res := (s1, caps))
    as (w & s' & caps' & Hs & _ & Hk); auto.
  - intros i v c _ _. exact I.
  - inversion Hk; subst. eauto.
Qed.

Lemma match_at_outer_group R size s e caps :
  outer_group_only R ->
  match_at R size s = Some (e, caps) ->
  exists w s', s = w ++ s' /\ e = (size - length s')%nat /\ caps = [Some w].
Proof.
  intros (body & Hfree & Htree & Hn). unfold match_at. rewrite Htree, Hn. simpl.
  intro H.
  destruct (m _ body _ _ _) as [[s1 caps1]|] eqn:Hm; [|discriminate].
  inversion H; subst; clear H.
  destruct (m_sound (fun c => c = [@None str]) (ignoreCase (re_flags R)) body)
    with (s := s) (caps := [@None str])
         (k := fun (s' : str) (caps' : captures) =>
                 Some (s', set_cap 0 (Some (consumed s s')) caps'))
         (res := (s1, caps))
    as (w & s' & caps' & Hs & Hq & Hk); auto.
  - intros i v c Hi. rewrite Hfree in Hi. destruct Hi.
  - inversion Hk; subst. rewrite consumed_app. simpl. eauto.
Qed.

End MatcherFacts.

(** ** Splitting a line *)


Module SplitFacts.

Import MatcherFacts.

Lemma match_at_bounds R S q e caps :
  (q <= length S)%nat ->
  match_at R (length S) (skipn q S) = Some (e, caps) ->
  (q <= e <= length S)%nat.
Proof.
  intros Hq H. destruct (match_at_end _ _ _ _ _ H) as (w & s' & Hs & ->).
  apply (f_equal (@length ascii)) in Hs.
  rewrite length_skipn, length_app in Hs. lia.
Qed.

(** [2 * length S + 2] rounds are enough for the loop to finish. *)
Lemma split_loop_total R S : forall fuel p q,
  (p <= q <= length S)%nat ->
  (2 * (length S - q) + (if (p <? q)%nat then 1 else 0) + 1 <= fuel)%nat ->
  exists A, split_loop fuel R S p q = Some A.
Proof.
  induction fuel as [|fuel IH]; intros p q Hq Hfuel; [lia|].
  simpl. destruct (q <? length S)%nat eqn:Hlt; [|eauto].
  apply Nat.ltb_lt in Hlt.
  assert (Hnext : exists A, split_loop fuel R S p (q + 1) = Some A).
  { apply IH; [lia|]. destruct (p <? q + 1)%nat, (p <? q)%nat; lia. }
  destruct (match_at R (length S) (skipn q S)) as [[e caps]|] eqn:Hm; [|exact Hnext].
  destruct (e =? p)%nat eqn:Hep; [exact Hnext|].
  apply Nat.eqb_neq in Hep.
  destruct (match_at_bounds _ _ _ _ _ (Nat.lt_le_incl _ _ Hlt) Hm) as [Hqe Hel].
  destruct (IH e e) as [A HA].
  - lia.
  - rewrite Nat.ltb_irrefl.
    destruct (p <? q)%nat eqn:Hpq; [lia|].
    apply Nat.ltb_ge in Hpq. lia.
  - rewrite HA. eauto.
Qed.

Lemma regexp_split_loop R c S :
  exists A, split_loop (2 * length (c :: S) + 2) R (c :: S) 0 0 = Some A /\
            regexp_split R (c :: S) = A.
Proof.
  destruct (split_loop_total R (c :: S) (2 * length (c :: S) + 2) 0 0) as [A HA].
  - lia.
  - rewrite Nat.ltb_irrefl. lia.
  - exists A. split; [exact HA|]. unfold regexp_split. now rewrite HA.
Qed.

Lemma skipn_app_exact (w s' S : str) q :
  skipn q S = w ++ s' -> s' = skipn (q + length w) S.
Proof.
  intro H. rewrite Nat.add_comm, <- skipn_skipn, H.
  rewrite skipn_app, Nat.sub_diag, skipn_all. reflexivity.
Qed.

Lemma occurs_substring S p q : occurs (substring S p q) S.
Proof.
  unfold substring.
  exists (firstn p S), (skipn (q - p) (skipn p S)).
  now rewrite firstn_skipn, firstn_skipn.
Qed.

(** With the outer group as only capture, the pieces the loop yields from
    [p] on are pieces of the line and spell out the line from [p] on. *)
Lemma split_loop_spec R S : outer_group_only R -> forall fuel p q A,
  (p <= q <= length S)%nat ->
  split_loop fuel R S p q = Some A ->
  concat (map rendered A) = skipn p S /\
  Forall (fun part => exists t, part = Some t /\ occurs t S) A.
Proof.
  intro HR. induction fuel as [|fuel IH]; intros p q A Hpq H; [discriminate|].
  simpl in H. destruct (q <? length S)%nat eqn:Hlt.
  - apply Nat.ltb_lt in Hlt.
    destruct (match_at R (length S) (skipn q S)) as [[e caps]|] eqn:Hm.
    + destruct (e =? p)%nat eqn:Hep; [apply (IH p (q + 1)%nat); [lia|exact H]|].
      destruct (split_loop fuel R S e e) as [A'|] eqn:HA'; [|discriminate].
      inversion H; subst; clear H.
      destruct (match_at_outer_group _ _ _ _ _ HR Hm) as (w & s' & Hs & He & ->).
      assert (Hlen : (e = q + length w)%nat).
      { apply (f_equal (@length ascii)) in Hs.
        rewrite length_skipn, length_app in Hs. lia. }
      assert (Hs' : s' = skipn e S).
      { rewrite Hlen. apply skipn_app_exact with (s' := s'). exact Hs. }
      destruct (IH e e A') as [Hcat Hall]; [lia|exact HA'|].
      split.
      * simpl. rewrite Hcat, <- Hs'. unfold substring.
        rewrite <- Hs.
        replace (skipn q S) with (skipn (q - p) (skipn p S))
          by (rewrite skipn_skipn; f_equal; lia).
        apply firstn_skipn.
      * constructor; [eexists; split; [reflexivity|apply occurs_substring]|].
        constructor; [|exact Hall].
        eexists. split; [reflexivity|].
        exists (firstn q S), s'. rewrite <- Hs. symmetry. apply firstn_skipn.
    + apply (IH p (q + 1)%nat); [lia|exact H].
  - inversion H; subst; clear H. simpl. rewrite app_nil_r.
    split.
    + unfold substring. apply firstn_all2. rewrite length_skipn. lia.
    + constructor; [|constructor].
      eexists. split; [reflexivity|apply occurs_substring].
Qed.

(** Reconstruction for one line: splitting on a pattern whose only capture
    is its outer group loses and repeats nothing. *)
Lemma regexp_split_spec R S :
  outer_group_only R ->
  concat (map rendered (regexp_split R S)) = S /\
  Forall (fun part => exists t, part = Some t /\ occurs t S) (regexp_split R S).
Proof.
  intro HR. destruct S as [|c S].
  - unfold regexp_split. destruct (match_at R 0 []).
    + split; [reflexivity|constructor].
    + split; [reflexivity|].
      constructor; [|constructor].
      exists []. split; [reflexivity|]. exists [], []. reflexivity.
  - destruct (regexp_split_loop R c S) as (A & HA & ->).
    change (c :: S) with (skipn 0 (c :: S)) at 1.
    eapply split_loop_spec; [exact HR| |exact HA]. simpl. lia.
Qed.

End SplitFacts.

(** ** Patterns built from plain snippets *)

Module ParserFacts.

Import MatcherFacts.

Lemma tcons_all_app ts1 ts2 r :
  tcons_all (ts1 ++ ts2) r = tcons_all ts1 (tcons_all ts2 r).
Proof. unfold tcons_all. apply fold_right_app. Qed.

Lemma tcons_all_parsed ts ts' : tcons_all ts (Parsed ts') = Parsed (ts ++ ts').
Proof. induction ts as [|t ts IH]; simpl; [reflexivity|]. now rewrite IH. Qed.

Lemma tokenize_ordinary c rest :
  special c = false -> structural c = false ->
  tokenize None (c :: rest) = tcons (TAtom (Chr c)) (tokenize None rest).
Proof.
  destruct c as [[|] [|] [|] [|] [|] [|] [|] [|]]; intros H1 H2;
    try discriminate H1; try discriminate H2; reflexivity.
Qed.

Lemma tokenize_greedy c q rest :
  In (c, q) [("*"%char, QStar); ("?"%char, QOpt)] ->
  starts_q rest = false ->
  tokenize None (c :: rest) = tcons (TQuant q true) (tokenize None rest).
Proof.
  intros Hc Hq.
  destruct rest as [|x rest].
  - destruct Hc as [Hc|[Hc|[]]]; inversion Hc; subst; reflexivity.
  - simpl in Hq.
    destruct Hc as [Hc|[Hc|[]]]; inversion Hc; subst;
      simpl; rewrite Hq; reflexivity.
Qed.

Lemma special_not_q c : special c = false -> (c =? "?")%char = false.
Proof.
  destruct c as [[|] [|] [|] [|] [|] [|] [|] [|]]; intro H;
    try discriminate H; reflexivity.
Qed.

Lemma starts_q_pattern_of_char c rest :
  special c = false -> starts_q (pattern_of_char c ++ rest) = false.
Proof.
  intro H. unfold pattern_of_char.
  destruct (c =? "(")%char; [reflexivity|].
  destruct (c =? ")")%char; [reflexivity|].
  destruct (is_space c); [reflexivity|].
  simpl. apply special_not_q. exact H.
Qed.

Lemma units_app ts1 ts2 : units ts1 -> units ts2 -> units (ts1 ++ ts2).
Proof.
  induction 1 as [|a ts Ha _ IH|a q g ts Ha _ IH|ts _ IH]; intro H2; simpl.
  - exact H2.
  - apply units_atom; auto.
  - apply units_quantified; auto.
  - apply units_bar; auto.
Qed.

(** The tokens of the pattern text of one plain character. *)
Lemma tokenize_pattern_of_char c rest :
  special c = false -> starts_q rest = false ->
  exists ts, units ts /\
    tokenize None (pattern_of_char c ++ rest) = tcons_all ts (tokenize None rest).
Proof.
  intros Hc Hq. unfold pattern_of_char.
  destruct (c =? "(")%char eqn:Ho; [|destruct (c =? ")")%char eqn:Hcl;
                                      [|destruct (is_space c) eqn:Hsp]].
  - exists [TAtom (Chr "("%char); TQuant QOpt true].
    split; [apply units_quantified; [reflexivity|constructor]|].
    change (tokenize None (("\(?" : str) ++ rest))
      with (tcons (TAtom (Chr "("%char)) (tokenize None ("?"%char :: rest))).
    rewrite (tokenize_greedy "?"%char QOpt rest); [reflexivity|simpl; auto|exact Hq].
  - exists [TAtom (Chr ")"%char); TQuant QOpt true].
    split; [apply units_quantified; [reflexivity|constructor]|].
    change (tokenize None (("\)?" : str) ++ rest))
      with (tcons (TAtom (Chr ")"%char)) (tokenize None ("?"%char :: rest))).
    rewrite (tokenize_greedy "?"%char QOpt rest); [reflexivity|simpl; auto|exact Hq].
  - exists [TAtom (Class false CSpace); TQuant QStar true].
    split; [apply units_quantified; [reflexivity|constructor]|].
    change (tokenize None (("\s*" : str) ++ rest))
      with (tcons (TAtom (Class false CSpace)) (tokenize None ("*"%char :: rest))).
    rewrite (tokenize_greedy "*"%char QStar rest); [reflexivity|simpl; auto|exact Hq].
  - destruct (c =? ".")%char eqn:Hdot; [|destruct (c =? "|")%char eqn:Hbar].
    + apply Ascii.eqb_eq in Hdot. subst c.
      exists [TAtom Any].
      split; [apply units_atom; [reflexivity|constructor]|reflexivity].
    + apply Ascii.eqb_eq in Hbar. subst c.
      exists [TBar]. split; [apply units_bar; constructor|reflexivity].
    + exists [TAtom (Chr c)].
      split; [apply units_atom; [reflexivity|constructor]|].
      simpl. apply tokenize_ordinary; [exact Hc|].
      unfold structural. simpl. now rewrite Ho, Hcl, Hdot, Hbar.
Qed.

Lemma tokenize_plain snippet : forall rest,
  plain snippet = true -> starts_q rest = false ->
  (exists ts, units ts /\
     tokenize None (optimizedSnippet snippet ++ rest)
       = tcons_all ts (tokenize None rest)) /\
  starts_q (optimizedSnippet snippet ++ rest) = false.
Proof.
  rewrite optimizedSnippet_flat_map.
  induction snippet as [|c snippet IH]; intros rest Hp Hq.
  - simpl. split; [exists []; split; [constructor|reflexivity] | exact Hq].
  - simpl in Hp. apply andb_prop in Hp. destruct Hp as [Hc Hp].
    apply negb_true_iff in Hc.
    destruct (IH rest Hp Hq) as [(ts & Hflat & Htok) Hq'].
    simpl. rewrite <- app_assoc.
    split; [|apply starts_q_pattern_of_char; exact Hc].
    destruct (tokenize_pattern_of_char c _ Hc Hq') as (ts0 & Hflat0 & Htok0).
    exists (ts0 ++ ts). split; [apply units_app; auto|].
    rewrite Htok0, Htok, tcons_all_app. reflexivity.
Qed.

(** The tokens of the alternatives of a line, up to the closing ")". *)
Lemma tokenize_join snippets :
  forallb plain snippets = true ->
  exists ts, units ts /\
    tokenize None (join ("|" : str) (map optimizedSnippet snippets) ++ (")" : str))
      = Parsed (ts ++ [TClose]) /\
    starts_q (join ("|" : str) (map optimizedSnippet snippets) ++ (")" : str)) = false.
Proof.
  induction snippets as [|x l IH]; intro Hp.
  - exists []. repeat split; constructor.
  - simpl in Hp. apply andb_prop in Hp. destruct Hp as [Hx Hl].
    destruct l as [|y l'].
    + destruct (tokenize_plain x (")" : str) Hx eq_refl) as [(ts & Hflat & Htok) Hq].
      exists ts.
      change (join ("|" : str) (map optimizedSnippet [x])) with (optimizedSnippet x).
      repeat split; [exact Hflat| |exact Hq].
      rewrite Htok. apply (tcons_all_parsed ts [TClose]).
    + destruct (IH Hl) as (ts' & Hflat' & Htok' & _).
      set (J := join ("|" : str) (map optimizedSnippet (y :: l'))) in *.
      change (join ("|" : str) (map optimizedSnippet (x :: y :: l')))
        with (optimizedSnippet x ++ ("|" : str) ++ J).
      rewrite <- !app_assoc.
      destruct (tokenize_plain x (("|" : str) ++ J ++ (")" : str)) Hx eq_refl)
        as [(ts & Hflat & Htok) Hq].
      exists (ts ++ TBar :: ts'). repeat split.
      * apply units_app; [exact Hflat|]. constructor. exact Hflat'.
      * rewrite Htok.
        change (tokenize None (("|" : str) ++ J ++ (")" : str)))
          with (tcons TBar (tokenize None (J ++ (")" : str)))).
        rewrite Htok'. simpl. rewrite tcons_all_parsed, <- app_assoc. reflexivity.
      * exact Hq.
Qed.

Lemma groups_mkSeq rs : group_free rs -> groups (mkSeq rs) = [].
Proof.
  induction 1 as [|r rs Hr _ IH]; [reflexivity|].
  destruct rs as [|r' rs']; [exact Hr|].
  change (groups (mkSeq (r :: r' :: rs'))) with (groups r ++ groups (mkSeq (r' :: rs'))).
  now rewrite Hr, IH.
Qed.

Lemma groups_mkAlt rs : group_free rs -> groups (mkAlt rs) = [].
Proof.
  induction 1 as [|r rs Hr _ IH]; [reflexivity|].
  destruct rs as [|r' rs']; [exact Hr|].
  change (groups (mkAlt (r :: r' :: rs'))) with (groups r ++ groups (mkAlt (r' :: rs'))).
  now rewrite Hr, IH.
Qed.

Lemma groups_close_frame f : group_free_frame f -> groups (close_frame f) = [].
Proof.
  intros [Ha Ht]. unfold close_frame. apply groups_mkAlt.
  apply Forall_rev. constructor; [|exact Ha].
  apply groups_mkSeq. apply Forall_rev. exact Ht.
Qed.

(** Units up to a closing parenthesis are accepted and fill the innermost
    group with a body that has no group of its own. *)
Lemma build_units ts : units ts ->
  forall cur kind parent stack n ts',
    group_free_frame cur ->
    exists body, groups body = [] /\
      build (ts ++ TClose :: ts') cur ((kind, parent) :: stack) n
        = build ts' (push_term (wrap kind body) parent) stack n.
Proof.
  induction 1 as [|a ts Ha _ IH|a q g ts Ha _ IH|ts _ IH];
    intros cur kind parent stack n ts' [Halts Hterms].
  - exists (close_frame cur).
    split; [apply groups_close_frame; split; assumption|reflexivity].
  - apply IH. split; [exact Halts|]. constructor; assumption.
  - apply IH. split; [exact Halts|]. constructor; assumption.
  - apply IH. split; [|constructor].
    constructor; [|exact Halts]. apply groups_mkSeq, Forall_rev, Hterms.
Qed.

(** [createSnippetsRegex] accepts plain snippets, and the pattern it builds
    from them has its outer group as only group. *)
Lemma createSnippetsRegex_plain snippets :
  forallb plain snippets = true ->
  exists R,
    createSnippetsRegex ecma (map optimizedSnippet snippets) = Normal R /\
    outer_group_only R.
Proof.
  intros Hp.
  destruct (tokenize_join snippets Hp) as (ts & Hflat & Htok & Hq).
  unfold createSnippetsRegex. change (re_new ecma) with regexp_new.
  unfold regexp_new, parse.
  set (body := join ("|" : str) (map optimizedSnippet snippets) ++ (")" : str)) in *.
  assert (Hopen : tokenize None ("("%char :: body) = tcons TOpen (tokenize None body)).
  { destruct body as [|x body']; [reflexivity|].
    simpl in Hq. simpl. rewrite Hq. reflexivity. }
  change (("(" : str) ++ body) with ("("%char :: body).
  rewrite Hopen, Htok.
  destruct (build_units ts Hflat frame0 (Some 0%nat) frame0 [] 1%nat [])
    as (tree & Hfree & Hb); [split; constructor|].
  simpl. rewrite Hb. simpl.
  eexists. split; [reflexivity|].
  exists tree. simpl. auto.
Qed.

End ParserFacts.

(** ** Reconstruction *)

Lemma groupBy_from_members refs : forall g g',
  groupBy_from g refs location_line = Normal g' ->
  forall k rs r, group_get k g' = Some rs -> In r rs ->
    In r refs \/ exists rs0, group_get k g = Some rs0 /\ In r rs0.
Proof.
  induction refs as [|r0 refs IH]; simpl; intros g g' H k rs r Hget Hin.
  - inversion H; subst. eauto.
  - destruct (location_line r0) as [k0| |]; simpl in H; try discriminate.
    destruct (IH _ _ H _ _ _ Hget Hin) as [Hr|(rs0 & Hget0 & Hin0)]; [auto|].
    rewrite group_get_add in Hget0.
    destruct (k =? k0)%Z eqn:Hk; [|eauto].
    apply Z.eqb_eq in Hk. subst k0.
    inversion Hget0; subst; clear Hget0.
    destruct (group_get k g) as [rs1|] eqn:Hg.
    + apply in_app_or in Hin0. destruct Hin0 as [Hin0|[->|[]]]; [eauto|auto].
    + destruct Hin0 as [->|[]]. auto.
Qed.

Lemma group_plain refs g k rs :
  plain_references refs = true ->
  groupBy (filter has_location refs) location_line = Normal g ->
  group_get k g = Some rs ->
  forallb plain (map sqlSnippet rs) = true.
Proof.
  intros Hp Hg Hget. apply forallb_forall. intros x Hx.
  apply in_map_iff in Hx. destruct Hx as (r & <- & Hr).
  destruct (groupBy_from_members _ _ _ Hg _ _ _ Hget Hr) as [Hin|(rs0 & H0 & _)];
    [|discriminate].
  unfold plain_references in Hp. rewrite forallb_forall in Hp. apply Hp. exact Hin.
Qed.

Lemma array_get_nth {A} (a : list A) i : array_get a (Z.of_nat i) = nth_error a i.
Proof.
  unfold array_get. rewrite Nat2Z.id.
  destruct (0 <=? Z.of_nat i)%Z eqn:H; [reflexivity|].
  apply Z.leb_gt in H. lia.
Qed.

(** The pieces a highlighted line was made from, for plain snippets. *)
Lemma line_result_plain sqlArray refs g i es :
  plain_references refs = true ->
  groupBy (filter has_location refs) location_line = Normal g ->
  line_result ecma sqlArray g (Z.of_nat i) es ->
  exists rs text parts ms regex,
    group_get (Z.of_nat i + 1) g = Some rs /\
    nth_error sqlArray i = Some text /\
    map_parts ecma regex rs 0 parts = Normal (es, ms) /\
    concat (map rendered parts) = text /\
    Forall (fun part => exists t, part = Some t /\ occurs t text) parts.
Proof.
  intros Hp Hg (rs & regex & text & ms & Hget & Hre & Ha & Hparts).
  rewrite array_get_nth in Ha.
  rewrite <- map_map in Hre.
  destruct (ParserFacts.createSnippetsRegex_plain (map sqlSnippet rs))
    as (R & HR & Hog); [eapply group_plain; eauto|].
  assert (R = regex) by congruence. subst R. clear HR. rename Hog into Hre'.
  destruct (SplitFacts.regexp_split_spec regex text Hre') as [Hcat Hall].
  exists rs, text, (regexp_split regex text), ms, regex. auto.
Qed.

(** C1, amended.  Reconstruction for plain snippets: when the snippets of
    the located references have no regular-expression special character
    (parentheses and whitespace are allowed) and the component returns,
    the texts of the segments of each line, concatenated in order, are
    exactly that line of [sql]. *)
Theorem C1_reconstruction_plain dev sql refs out :
  plain_references refs = true ->
  SQLHighlight ecma dev sql refs = Normal out ->
  map children_text (content out) = split_on "010"%char sql.
Proof.
  intros Hp H.
  destruct (SQLHighlight_inv _ _ _ _ _ H) as (g & h & ms & Hg & Hf & Hc & _).
  rewrite Hc. apply map_indexed_text. intros i x Hx. simpl.
  destruct (highlights_get (Z.of_nat i) h) as [es|] eqn:Hh; [|reflexivity].
  destruct (forEach_highlights _ _ _ _ _ _ _ _ Hf _ _ Hh) as [Hold|Hnew];
    [discriminate|].
  destruct (line_result_plain _ _ _ _ _ Hp Hg Hnew)
    as (rs & text & parts & ms' & regex & _ & Hnth & Hparts & Hcat & _).
  destruct (map_parts_spec _ _ _ _ _ _ _ Hparts) as [Htxt _].
  simpl. rewrite Htxt, Hcat. congruence.
Qed.

Lemma C1_reconstruction_plain_witness :
  exists out,
    SQLHighlight ecma true three_lines [ref 1 "select  A" 1; ref 2 "f(a)" 3] = Normal out /\
    map children_text (content out) = split_on "010"%char three_lines.
Proof.
  eexists. split; [vm_compute; reflexivity|].
  apply (C1_reconstruction_plain true three_lines
           [ref 1 "select  A" 1; ref 2 "f(a)" 3]).
  - vm_compute. reflexivity.
  - vm_compute. reflexivity.
Defined.

(** C1 does not hold for every references list: a snippet that starts with
    "?:" turns the outer group of the pattern into a non-capturing one, and
    the text it matches is dropped from the line. *)
Lemma C1_counterexample :
  exists out c,
    SQLHighlight ecma false "xay" [ref 1 "?:a" 1] = Normal out /\
    nth_error (split_on "010"%char "xay") 0 = Some ("xay" : str) /\
    nth_error (content out) 0 = Some c /\
    children_text c = ("xy" : str) /\
    children_text c <> ("xay" : str).
Proof.
  eexists. eexists. split; [vm_compute; reflexivity|].
  split; [reflexivity|]. split; [reflexivity|].
  split; [reflexivity|]. vm_compute. discriminate.
Qed.

(** ** Snippets that do not occur in their line *)



Module LiteralFacts.

Import MatcherFacts ParserFacts.

Lemma literal_char c :
  negb (special c) && negb (structural c) = true ->
  special c = false /\ structural c = false.
Proof.
  intro H. apply andb_prop in H. destruct H as [H1 H2].
  rewrite negb_true_iff in *. auto.
Qed.

Lemma tokenize_literal s :
  literal s = true ->
  tokenize None s = Parsed (map (fun c => TAtom (Chr c)) s).
Proof.
  induction s as [|c s IH]; intro H; [reflexivity|].
  simpl in H. apply andb_prop in H. destruct H as [Hc Hs].
  destruct (literal_char c Hc) as (H1 & H2).
  rewrite tokenize_ordinary by assumption.
  rewrite (IH Hs). reflexivity.
Qed.

Lemma build_atoms l : forall cur stack n ts,
  build (map (fun c => TAtom (Chr c)) l ++ ts) cur stack n =
    build ts
      {| f_alts := f_alts cur;
         f_terms := rev (map Chr l) ++ f_terms cur;
         f_quantified := match l with [] => f_quantified cur | _ :: _ => false end |}
      stack n.
Proof.
  induction l as [|c l IH]; intros cur stack n ts.
  - simpl. destruct cur; reflexivity.
  - simpl. rewrite IH. simpl. rewrite <- app_assoc. simpl.
    destruct l; reflexivity.
Qed.

(** A literal snippet read as a pattern is the sequence of its characters. *)
Lemma parse_literal s :
  literal s = true -> parse s = Parsed (mkSeq (map Chr s), 0%nat).
Proof.
  intro H. unfold parse. rewrite (tokenize_literal s H).
  rewrite <- (app_nil_r (map _ s)), build_atoms. simpl.
  unfold close_frame. simpl. now rewrite app_nil_r, rev_involutive.
Qed.

Lemma m_mkSeq_cons ic r rs s caps k :
  m ic (mkSeq (r :: rs)) s caps k =
    m ic r s caps (fun s' caps' => m ic (mkSeq rs) s' caps' k).
Proof. destruct rs; reflexivity. Qed.




End LiteralFacts.

(** ** Inputs on which the component returns *)










(** ** The development flag *)


(** ** Empty input *)

(** C8, amended.  For the empty string the output has one line, not none:
    without located references it is the empty line as plain text, and
    whatever the references, if the component returns, the only line has
    empty text and no matched segment. *)
Theorem C8_empty_sql_one_line :
  (forall (E : Engine) dev,
      SQLHighlight E dev [] [] = Normal {| content := [Text []]; warned := None |}) /\
  (forall dev refs out,
      SQLHighlight ecma dev [] refs = Normal out ->
      exists c,
        content out = [c] /\
        children_text c = [] /\
        forall es part tags, c = Highlighted es -> ~ In (mark part tags) es).
Proof.
  split.
  - intros E dev. unfold SQLHighlight. simpl. destruct dev; reflexivity.
  - intros dev refs out H.
    destruct (SQLHighlight_inv _ _ _ _ _ H) as (g & h & ms & Hg & Hf & Hc & _).
    simpl in Hc, Hf. rewrite Hc.
    destruct (highlights_get 0 h) as [es|] eqn:Hh.
    + exists (Highlighted es). split; [reflexivity|].
      destruct (forEach_highlights _ _ _ _ _ _ _ _ Hf _ _ Hh) as [Hold|Hnew];
        [discriminate|].
      destruct Hnew as (rs & regex & text & ms' & _ & _ & Ha & Hparts).
      inversion Ha; subst text; clear Ha.
      change (re_split ecma regex []) with (regexp_split regex []) in Hparts.
      unfold regexp_split in Hparts.
      destruct (match_at regex 0 []) as [z|] eqn:Hm.
      * simpl in Hparts. inversion Hparts; subst.
        split; [reflexivity|]. intros es' part tags Heq. inversion Heq; subst.
        intros [].
      * assert (Htest : re_test ecma regex 0 (ToString (Some [])) = (false, 0%nat)).
        { change (re_test ecma) with regexp_test. unfold regexp_test. simpl.
          destruct (global (re_flags regex)); simpl; rewrite Hm; reflexivity. }
        simpl in Hparts. simpl in Htest. rewrite Htest in Hparts. simpl in Hparts.
        inversion Hparts; subst.
        split; [reflexivity|]. intros es' part tags Heq. inversion Heq; subst.
        intros [Hx|[]]. discriminate.
    + exists (Text []). split; [reflexivity|]. split; [reflexivity|].
      intros es part tags Heq. discriminate.
Qed.

Lemma C8_empty_sql_one_line_witness :
  exists c,
    content {| content := [Highlighted []]; warned := None |} = [c] /\
    children_text c = [] /\
    forall es part tags, c = Highlighted es -> ~ In (mark part tags) es.
Proof.
  apply (proj2 C8_empty_sql_one_line false [ref 1 "" 1]).
  vm_compute. reflexivity.
Defined.

(** C8 does not hold as it is written: the empty string is rendered as
    one line, not as none. *)
Lemma C8_counterexample :
  exists out,
    SQLHighlight ecma false [] [] = Normal out /\
    length (content out) = 1%nat /\
    length (content out) <> 0%nat.
Proof.
  eexists. split; [reflexivity|]. split; [reflexivity|]. discriminate.
Qed.

(** ** Case, whitespace and the association test *)

(** C2.  The code at the failing input: the line "select" is split
    case-insensitively and its only piece is marked, but the association
    test compiles the snippet "SELECT" without the ignoreCase flag, so the
    mark carries no reference, and under the development flag the reference
    is reported as unmatched.  With the same letter case the reference is
    attached. *)
Theorem C2_case_differing_occurrence :
  SQLHighlight ecma true "select" [ref 1 "SELECT" 1] =
    Normal {| content :=
                [Highlighted [span (Some []); mark (Some ("select" : str)) [];
                              span (Some [])]];
              warned := Some [ref 1 "SELECT" 1] |} /\
  SQLHighlight ecma true "SELECT" [ref 1 "SELECT" 1] =
    Normal {| content :=
                [Highlighted [span (Some []);
                              mark (Some ("SELECT" : str)) [ref 1 "SELECT" 1];
                              span (Some [])]];
              warned := None |}.
Proof. split; vm_compute; reflexivity. Qed.

(** C9.  A matched segment can have an empty list of references: the
    snippet "A B" declared on the line "a  b" yields one [<mark>] around
    "a  b" with no tag. *)
Theorem C9_matched_segment_without_references :
  exists sql refs out es part,
    SQLHighlight ecma false sql refs = Normal out /\
    sql = ("a  b" : str) /\
    refs = [ref 1 "A B" 1] /\
    nth_error (content out) 0 = Some (Highlighted es) /\
    In (mark part []) es /\
    part = Some ("a  b" : str).
Proof.
  exists ("a  b" : str), [ref 1 "A B" 1].
  eexists. exists [span (Some []); mark (Some ("a  b" : str)) []; span (Some [])].
  exists (Some ("a  b" : str)).
  split; [vm_compute; reflexivity|].
  repeat split. simpl. auto.
Qed.


(** * Further properties of the component *)

(** ** What a group holds *)

Lemma declares_line r k :
  declares k r = true <-> location_line r = Normal k.
Proof.
  unfold declares, location_line. destruct (sqlLocation r) as [loc|].
  - rewrite Z.eqb_eq. split; [intros ->; reflexivity|intro H; now inversion H].
  - split; discriminate.
Qed.

Lemma declares_line_false r k k0 :
  location_line r = Normal k0 -> declares k r = (k =? k0)%Z.
Proof.
  unfold declares, location_line. destruct (sqlLocation r) as [loc|]; intro H;
    inversion H. apply Z.eqb_sym.
Qed.

(** After grouping, the group of [k] is what it was, followed by the
    references of the list that declare [k], in the order of the list. *)
Lemma groupBy_from_get refs : forall g g' k,
  groupBy_from g refs location_line = Normal g' ->
  group_get k g' =
    match group_get k g, filter (declares k) refs with
    | None, [] => None
    | None, l => Some l
    | Some rs, l => Some (rs ++ l)
    end.
Proof.
  induction refs as [|r refs IH]; simpl; intros g g' k H.
  - inversion H; subst. destruct (group_get k g'); [now rewrite app_nil_r|reflexivity].
  - destruct (location_line r) as [k0| |] eqn:Hr; simpl in H; try discriminate.
    rewrite (IH _ _ k H), group_get_add, (declares_line_false _ k _ Hr).
    destruct (k =? k0)%Z eqn:Hk.
    + apply Z.eqb_eq in Hk. subst k0.
      destruct (group_get k g) as [rs|]; [now rewrite <- app_assoc|reflexivity].
    + reflexivity.
Qed.

Lemma filter_declares_located k refs :
  filter (declares k) (filter has_location refs) = filter (declares k) refs.
Proof.
  induction refs as [|r refs IH]; simpl; [reflexivity|].
  unfold has_location at 1, declares at 2.
  destruct (sqlLocation r) as [loc|] eqn:Hr; simpl; [|exact IH].
  unfold declares at 1. rewrite Hr. now rewrite IH.
Qed.

(** The groups of the component: line [k] has a group when some located
    reference declares it, and the group lists those references in order. *)
Lemma referenceGroups_get refs g k :
  groupBy (filter has_location refs) location_line = Normal g ->
  group_get k g =
    match filter (declares k) refs with
    | [] => None
    | l => Some l
    end.
Proof.
  intro H. rewrite (groupBy_from_get _ _ _ k H), filter_declares_located.
  reflexivity.
Qed.

Lemma filter_c_filter (pred : Reference -> completion bool) rs : forall tags,
  filter_c pred rs = Normal tags ->
  tags = filter (fun r => match pred r with Normal true => true | _ => false end) rs.
Proof.
  induction rs as [|r rs IH]; simpl; intros tags H.
  - now inversion H.
  - destruct (pred r) as [b| |]; simpl in H; try discriminate.
    destruct (filter_c pred rs) as [keep| |]; simpl in H; try discriminate.
    inversion H; subst. rewrite (IH keep eq_refl). destruct b; reflexivity.
Qed.

(** ** Lines of the output *)

Lemma map_indexed_length {A B} (f : A -> Z -> B) a : forall start,
  length (map_indexed f start a) = length a.
Proof. induction a as [|x a IH]; intro start; simpl; [reflexivity|]. now rewrite IH. Qed.

Lemma split_on_length sep s :
  length (split_on sep s) = S (count_occ ascii_dec s sep).
Proof.
  induction s as [|c s IH]; [reflexivity|].
  simpl. destruct (c =? sep)%char eqn:Hc.
  - apply Ascii.eqb_eq in Hc. subst c. simpl. rewrite IH.
    destruct (ascii_dec sep sep); [reflexivity|congruence].
  - apply Ascii.eqb_neq in Hc.
    destruct (ascii_dec c sep); [congruence|].
    destruct (split_on sep s); simpl in *; [discriminate|exact IH].
Qed.

Lemma split_on_cons sep s : exists l ls, split_on sep s = l :: ls.
Proof.
  pose proof (split_on_length sep s) as H.
  destruct (split_on sep s) as [|l ls]; [discriminate H|eauto].
Qed.

Lemma split_on_join sep s : join [sep] (split_on sep s) = s.
Proof.
  induction s as [|c s IH]; [reflexivity|].
  simpl. destruct (split_on_cons sep s) as (l & ls & Hs). rewrite Hs in *.
  destruct (c =? sep)%char eqn:Hc.
  - apply Ascii.eqb_eq in Hc. subst c.
    change (join [sep] ([] :: l :: ls)) with (sep :: join [sep] (l :: ls)).
    now rewrite IH.
  - rewrite <- IH. destruct ls; reflexivity.
Qed.

Lemma split_on_no_sep sep s :
  Forall (fun l => ~ In sep l) (split_on sep s).
Proof.
  induction s as [|c s IH]; [repeat constructor; auto|].
  simpl. destruct (c =? sep)%char eqn:Hc.
  - constructor; [intros []|exact IH].
  - apply Ascii.eqb_neq in Hc.
    destruct (split_on sep s) as [|l ls]; [repeat constructor; intros [H|[]]; congruence|].
    inversion IH; subst. constructor; [|assumption].
    intros [H|H]; [congruence|contradiction].
Qed.

(** The steps of one round of [forEach] that returns. *)
Lemma highlight_line_inv (E : Engine) sqlArray g h ms k h1 ms1 :
  highlight_line E sqlArray g (h, ms) k = Normal (h1, ms1) ->
  exists rs regex text es ms0,
    group_get k g = Some rs /\
    createSnippetsRegex E (map (fun r => optimizedSnippet (sqlSnippet r)) rs)
      = Normal regex /\
    array_get sqlArray (k - 1) = Some text /\
    map_parts E regex rs 0 (re_split E regex text) = Normal (es, ms0) /\
    h1 = ((k - 1)%Z, es) :: h /\
    ms1 = ms ++ ms0.
Proof.
  unfold highlight_line. intro H.
  destruct (group_get k g) as [rs|]; [|discriminate].
  destruct (createSnippetsRegex E _) as [regex| |] eqn:Hre; simpl in H;
    try discriminate.
  destruct (array_get sqlArray (k - 1)) as [text|]; [|discriminate].
  destruct (map_parts E regex rs 0 (re_split E regex text)) as [[es ms0]| |] eqn:Hm;
    simpl in H; try discriminate.
  inversion H; subst. exists rs, regex, text, es, ms0. auto 10.
Qed.

(** Every key of the loop leaves an entry in [highlights]. *)
Lemma forEach_sets (E : Engine) sqlArray g keys : forall h ms h' ms',
  forEach (highlight_line E sqlArray g) (h, ms) keys = Normal (h', ms') ->
  forall i,
    (highlights_get i h <> None \/ In (i + 1)%Z keys) ->
    highlights_get i h' <> None.
Proof.
  induction keys as [|k keys IH]; intros h ms h' ms' H i Hi.
  - inversion H; subst. destruct Hi as [Hi|[]]. exact Hi.
  - rewrite forEach_cons in H.
    destruct (highlight_line E sqlArray g (h, ms) k) as [[h1 ms1]| |] eqn:Hk;
      simpl in H; try discriminate.
    apply (IH _ _ _ _ H).
    destruct (highlight_line_inv _ _ _ _ _ _ _ _ Hk)
      as (rs & regex & text & es & ms0 & _ & _ & _ & _ & -> & _).
    simpl. destruct (i =? k - 1)%Z eqn:Hik; [left; discriminate|].
    destruct Hi as [Hi|[Hi|Hi]]; [left; exact Hi| |right; exact Hi].
    apply Z.eqb_neq in Hik. lia.
Qed.

(** X1.  Whenever the component returns, it renders one line for each line
    of [sql]: one more than the number of newline characters. *)
Theorem X1_one_div_per_line (E : Engine) dev sql refs out :
  SQLHighlight E dev sql refs = Normal out ->
  length (content out) = S (count_occ ascii_dec sql newline).
Proof.
  intro H.
  destruct (SQLHighlight_inv _ _ _ _ _ H) as (g & h & ms & _ & _ & Hc & _).
  rewrite Hc, map_indexed_length. apply split_on_length.
Qed.

Lemma X1_one_div_per_line_witness :
  length
    (content {| content := [Text ("SELECT a" : str);
                            Highlighted [span (Some ("FROM " : str));
                                         mark (Some ("a" : str)) [ref 7 "a" 2];
                                         span (Some [])];
                            Text ("WHERE a" : str)];
                warned := None |})
    = S (count_occ ascii_dec three_lines newline).
Proof.
  apply (X1_one_div_per_line ecma false three_lines [ref 7 "a" 2]).
  vm_compute. reflexivity.
Defined.

(** Reconstruction line by line, for plain snippets. *)
Lemma lines_reconstructed dev sql refs out :
  plain_references refs = true ->
  SQLHighlight ecma dev sql refs = Normal out ->
  map children_text (content out) = split_on newline sql.
Proof.
  intros Hp H.
  destruct (SQLHighlight_inv _ _ _ _ _ H) as (g & h & ms & Hg & Hf & Hc & _).
  rewrite Hc. apply map_indexed_text. intros i x Hx. simpl.
  destruct (highlights_get (Z.of_nat i) h) as [es|] eqn:Hh; [|reflexivity].
  destruct (forEach_highlights _ _ _ _ _ _ _ _ Hf _ _ Hh) as [Hold|Hnew];
    [discriminate|].
  destruct (line_result_plain _ _ _ _ _ Hp Hg Hnew)
    as (rs & text & parts & ms' & regex & _ & Hnth & Hparts & Hcat & _).
  destruct (map_parts_spec _ _ _ _ _ _ _ Hparts) as [Htxt _].
  simpl. rewrite Htxt, Hcat. unfold newline in Hx. congruence.
Qed.

(** X2.  For plain snippets the rendered text is the text of [sql]: the
    texts of the lines, joined by newlines, give [sql] back, and no rendered
    line contains a newline. *)
Theorem X2_text_round_trip dev sql refs out :
  plain_references refs = true ->
  SQLHighlight ecma dev sql refs = Normal out ->
  join [newline] (map children_text (content out)) = sql /\
  Forall (fun c => ~ In newline (children_text c)) (content out).
Proof.
  intros Hp H. pose proof (lines_reconstructed _ _ _ _ Hp H) as Hl.
  split.
  - rewrite Hl. apply split_on_join.
  - apply Forall_forall. intros c Hc.
    pose proof (split_on_no_sep newline sql) as Hno. rewrite <- Hl in Hno.
    rewrite Forall_forall in Hno. apply Hno. apply in_map. exact Hc.
Qed.

Lemma X2_text_round_trip_witness :
  join [newline]
    (map children_text
       [Text ("SELECT a" : str);
        Highlighted [span (Some ("FROM " : str));
                     mark (Some ("a" : str)) [ref 7 "a" 2]; span (Some [])];
        Text ("WHERE a" : str)]) = three_lines /\
  Forall (fun c => ~ In newline (children_text c))
    [Text ("SELECT a" : str);
     Highlighted [span (Some ("FROM " : str));
                  mark (Some ("a" : str)) [ref 7 "a" 2]; span (Some [])];
     Text ("WHERE a" : str)].
Proof.
  apply (X2_text_round_trip false three_lines [ref 7 "a" 2]
           {| content := [Text ("SELECT a" : str);
                          Highlighted [span (Some ("FROM " : str));
                                       mark (Some ("a" : str)) [ref 7 "a" 2];
                                       span (Some [])];
                          Text ("WHERE a" : str)];
              warned := None |}).
  - vm_compute. reflexivity.
  - vm_compute. reflexivity.
Defined.

(** X3.  Which lines are highlighted: whenever the component returns, a
    line that no located reference declares is rendered as its plain text,
    and a line that some located reference declares is rendered as a list of
    elements, whether or not anything on it matched. *)
Theorem X3_line_kind (E : Engine) dev sql refs out i l :
  SQLHighlight E dev sql refs = Normal out ->
  nth_error (split_on newline sql) i = Some l ->
  (filter (declares (Z.of_nat i + 1)) refs = [] ->
   nth_error (content out) i = Some (Text l)) /\
  (filter (declares (Z.of_nat i + 1)) refs <> [] ->
   exists es, nth_error (content out) i = Some (Highlighted es)).
Proof.
  intros H Hl.
  destruct (SQLHighlight_inv _ _ _ _ _ H) as (g & h & ms & Hg & Hf & Hc & _).
  pose proof (referenceGroups_get _ _ (Z.of_nat i + 1) Hg) as Hget.
  rewrite Hc, map_indexed_nth. unfold newline in Hl. rewrite Hl. simpl.
  split; intro Hd.
  - rewrite Hd in Hget.
    destruct (highlights_get (Z.of_nat i) h) as [es|] eqn:Hh; [|reflexivity].
    destruct (forEach_highlights _ _ _ _ _ _ _ _ Hf _ _ Hh) as [Hold|Hnew];
      [discriminate|].
    destruct Hnew as (rs & _ & _ & _ & Hrs & _). congruence.
  - destruct (filter (declares (Z.of_nat i + 1)) refs) as [|r0 rs0] eqn:Hfl;
      [congruence|].
    apply group_get_key, In_Object_keys in Hget.
    pose proof (forEach_sets _ _ _ _ _ _ _ _ Hf (Z.of_nat i) (or_intror Hget)) as Hs.
    destruct (highlights_get (Z.of_nat i) h) as [es|]; [eauto|congruence].
Qed.

Lemma X3_line_kind_witness :
  nth_error
    [Text ("SELECT a" : str); Highlighted [span (Some ("FROM a" : str))];
     Text ("WHERE a" : str)] 0 = Some (Text ("SELECT a" : str)) /\
  exists es,
    nth_error
      [Text ("SELECT a" : str); Highlighted [span (Some ("FROM a" : str))];
       Text ("WHERE a" : str)] 1 = Some (Highlighted es).
Proof.
  assert (H : SQLHighlight ecma false three_lines [ref 7 "zz" 2]
              = Normal {| content := [Text ("SELECT a" : str);
                                      Highlighted [span (Some ("FROM a" : str))];
                                      Text ("WHERE a" : str)];
                          warned := None |})
    by (vm_compute; reflexivity).
  split.
  - apply (proj1 (X3_line_kind ecma false three_lines [ref 7 "zz" 2] _ 0%nat
                    ("SELECT a" : str) H eq_refl)).
    reflexivity.
  - apply (proj2 (X3_line_kind ecma false three_lines [ref 7 "zz" 2] _ 1%nat
                    ("FROM a" : str) H eq_refl)).
    discriminate.
Defined.

(** X4.  The tags of a matched segment: whenever the component returns, the
    tag list of a [<mark>] on line [i + 1] is exactly the references that
    declare that line and whose own snippet, compiled as a pattern without
    flags, tests true on the piece, in the order of the references list. *)
Theorem X4_tags_of_a_mark (E : Engine) dev sql refs out i es part tags :
  SQLHighlight E dev sql refs = Normal out ->
  nth_error (content out) i = Some (Highlighted es) ->
  In (mark part tags) es ->
  tags = filter (passes E part) (filter (declares (Z.of_nat i + 1)) refs).
Proof.
  intros H Hnth Hmark.
  destruct (highlighted_line _ _ _ _ _ _ _ H Hnth) as (g & Hg & Hline).
  destruct Hline as (rs & regex & text & ms & Hget & _ & _ & Hparts).
  destruct (map_parts_spec _ _ _ _ _ _ _ Hparts) as [_ Hmarks].
  destruct (Hmarks _ _ Hmark) as [_ Hf].
  rewrite (referenceGroups_get _ _ _ Hg) in Hget.
  destruct (filter (declares (Z.of_nat i + 1)) refs) as [|r0 rs0];
    inversion Hget; subst.
  apply (filter_c_filter _ _ _ Hf).
Qed.

Lemma X4_tags_of_a_mark_witness :
  [ref 1 "a" 1] =
    filter (passes ecma (Some ("a" : str)))
      (filter (declares (Z.of_nat 0 + 1)) [ref 1 "a" 1; ref 2 "A" 1; ref 3 "a" 2]).
Proof.
  apply (X4_tags_of_a_mark ecma false (("SELECT a" : str) ++ [newline] ++ ("b" : str))
           [ref 1 "a" 1; ref 2 "A" 1; ref 3 "a" 2]
           {| content :=
                [Highlighted [span (Some ("SELECT " : str));
                              mark (Some ("a" : str)) [ref 1 "a" 1]; span (Some [])];
                 Highlighted [span (Some ("b" : str))]];
              warned := None |}
           0%nat
           [span (Some ("SELECT " : str)); mark (Some ("a" : str)) [ref 1 "a" 1];
            span (Some [])]).
  - vm_compute. reflexivity.
  - reflexivity.
  - right. left. reflexivity.
Defined.

(** ** The warning of the development flag *)

Lemma map_parts_matches (E : Engine) regex rs : forall parts lastIndex es ms,
  map_parts E regex rs lastIndex parts = Normal (es, ms) -> ms = marks_tags es.
Proof.
  induction parts as [|part parts IH]; simpl; intros lastIndex es ms H.
  - now inversion H.
  - destruct (re_test E regex lastIndex (ToString part)) as [matched lastIndex'].
    destruct matched.
    + destruct (filter_c (snippet_test E part) rs) as [tags0| |]; simpl in H;
        try discriminate.
      destruct (map_parts E regex rs lastIndex' parts) as [[es0 ms0]| |] eqn:Hm;
        simpl in H; try discriminate.
      inversion H; subst. simpl. f_equal. eapply IH; eauto.
    + destruct (map_parts E regex rs lastIndex' parts) as [[es0 ms0]| |] eqn:Hm;
        simpl in H; try discriminate.
      inversion H; subst. simpl. eapply IH; eauto.
Qed.

Lemma forEach_invariant {S K} (body : S -> K -> completion S) (P : S -> Prop) :
  (forall st k st', P st -> body st k = Normal st' -> P st') ->
  forall keys st st', P st -> forEach body st keys = Normal st' -> P st'.
Proof.
  intro Hstep. induction keys as [|k keys IH]; intros st st' HP H.
  - inversion H; subst. exact HP.
  - rewrite forEach_cons in H.
    destruct (body st k) as [st1| |] eqn:Hb; simpl in H; try discriminate.
    eapply IH; [|exact H]. eapply Hstep; eauto.
Qed.

(** The entries of [highlights] are written at the indices of the keys. *)
Lemma forEach_indices (E : Engine) sqlArray g keys : forall h ms h' ms',
  forEach (highlight_line E sqlArray g) (h, ms) keys = Normal (h', ms') ->
  map fst h' = rev (map (fun k => (k - 1)%Z) keys) ++ map fst h.
Proof.
  induction keys as [|k keys IH]; intros h ms h' ms' H.
  - inversion H; subst. reflexivity.
  - rewrite forEach_cons in H.
    destruct (highlight_line E sqlArray g (h, ms) k) as [[h1 ms1]| |] eqn:Hk;
      simpl in H; try discriminate.
    destruct (highlight_line_inv _ _ _ _ _ _ _ _ Hk)
      as (rs & regex & text & es & ms0 & _ & _ & _ & _ & -> & _).
    rewrite (IH _ _ _ _ H). simpl. now rewrite <- app_assoc.
Qed.

Lemma forEach_matches (E : Engine) sqlArray g keys h' ms' :
  forEach (highlight_line E sqlArray g) ([], []) keys = Normal (h', ms') ->
  matches_of_highlights sqlArray (h', ms').
Proof.
  apply (forEach_invariant _ (matches_of_highlights sqlArray)).
  - intros [h ms] k [h1 ms1] [Hms Hidx] Hk.
    destruct (highlight_line_inv _ _ _ _ _ _ _ _ Hk)
      as (rs & regex & text & es & ms0 & _ & _ & Ha & Hparts & -> & ->).
    apply map_parts_matches in Hparts. subst ms0.
    split; simpl.
    + intro tags. rewrite in_app_iff, Hms. simpl. split.
      * intros [(i & es0 & Hin & Ht)|Ht]; [exists i, es0; auto|].
        exists (k - 1)%Z, es. auto.
      * intros (i & es0 & [Heq|Hin] & Ht).
        -- inversion Heq; subst. auto.
        -- left. eauto.
    + intros i es0 [Heq|Hin]; [|eauto].
      inversion Heq; subst. unfold array_get in Ha.
      destruct (0 <=? k - 1)%Z eqn:Hpos; [|discriminate].
      apply Z.leb_le in Hpos.
      assert (Hlt : (Z.to_nat (k - 1) < length sqlArray)%nat)
        by (apply nth_error_Some; congruence).
      lia.
  - split; simpl; [|intros ? ? []].
    intro tags. split; [intros []|intros (i & es & [] & _)].
Qed.

Lemma In_group_add k r g x :
  In x (map fst (group_add k r g)) -> x = k \/ In x (map fst g).
Proof.
  induction g as [|[k' rs] g IH]; simpl; [intuition|].
  destruct (k =? k')%Z; simpl; intuition.
Qed.

Lemma NoDup_group_add k r g : NoDup (map fst g) -> NoDup (map fst (group_add k r g)).
Proof.
  induction g as [|[k' rs] g IH]; simpl; intro H; [repeat constructor; auto|].
  destruct (k =? k')%Z eqn:Hk; simpl; [exact H|].
  inversion H; subst. constructor; [|auto].
  intro Hx. destruct (In_group_add _ _ _ _ Hx) as [->|Hg]; [|contradiction].
  rewrite Z.eqb_refl in Hk. discriminate.
Qed.

Lemma groupBy_from_NoDup refs : forall g g',
  NoDup (map fst g) ->
  groupBy_from g refs location_line = Normal g' -> NoDup (map fst g').
Proof.
  induction refs as [|r refs IH]; simpl; intros g g' Hg H.
  - now inversion H; subst.
  - destruct (location_line r) as [k0| |]; simpl in H; try discriminate.
    eapply IH; [|exact H]. apply NoDup_group_add. exact Hg.
Qed.

Lemma NoDup_insert_sorted k ks :
  ~ In k ks -> NoDup ks -> NoDup (insert_sorted k ks).
Proof.
  induction ks as [|k' ks IH]; simpl; intros Hk Hks; [repeat constructor; auto|].
  destruct (k <=? k')%Z; [constructor; assumption|].
  inversion Hks; subst. constructor.
  - rewrite In_insert_sorted. intuition.
  - apply IH; [intuition|assumption].
Qed.

Lemma NoDup_Object_keys g : NoDup (map fst g) -> NoDup (Object_keys g).
Proof.
  intro H. unfold Object_keys.
  assert (Hs : forall l, NoDup l ->
             NoDup (fold_right insert_sorted [] l) /\
             forall x, In x (fold_right insert_sorted [] l) <-> In x l).
  { induction l as [|x l IH]; intro Hl; simpl; [split; [constructor|tauto]|].
    inversion Hl; subst. destruct (IH H3) as [Hnd Hin]. split.
    - apply NoDup_insert_sorted; [rewrite Hin; assumption|assumption].
    - intro y. rewrite In_insert_sorted, Hin. intuition. }
  destruct (Hs (filter is_array_index (map fst g))) as [Hnd Hin];
    [apply NoDup_filter; exact H|].
  apply NoDup_app; [exact Hnd|apply NoDup_filter; exact H|].
  intros x Hx Hx'. rewrite Hin in Hx.
  apply filter_In in Hx. apply filter_In in Hx'.
  destruct Hx as [_ Hx], Hx' as [_ Hx']. rewrite Hx in Hx'. discriminate.
Qed.

Lemma highlights_get_In i h es : highlights_get i h = Some es -> In (i, es) h.
Proof.
  induction h as [|[j es0] h IH]; simpl; [discriminate|].
  destruct (i =? j)%Z eqn:Hij; [|auto].
  apply Z.eqb_eq in Hij. intro H. inversion H; subst. auto.
Qed.

Lemma In_highlights_get i h es :
  NoDup (map fst h) -> In (i, es) h -> highlights_get i h = Some es.
Proof.
  induction h as [|[j es0] h IH]; simpl; intros Hnd Hin; [destruct Hin|].
  destruct Hin as [Heq|Hin].
  - inversion Heq; subst. now rewrite Z.eqb_refl.
  - inversion Hnd; subst.
    destruct (i =? j)%Z eqn:Hij; [|auto].
    apply Z.eqb_eq in Hij. subst j. exfalso. apply H1.
    change i with (fst (i, es)). apply in_map. exact Hin.
Qed.

Lemma NoDup_map_pred (keys : list Z) :
  NoDup keys -> NoDup (map (fun k => (k - 1)%Z) keys).
Proof.
  induction 1 as [|k keys Hk _ IH]; simpl; constructor; [|exact IH].
  rewrite in_map_iff. intros (x & Hx & Hin).
  assert (x = k) by lia. subst x. contradiction.
Qed.

(** The references pushed on [referenceMatches] are the references shown
    as tags in the rendered lines. *)
Lemma referenceMatches_are_tags (E : Engine) dev sql refs out :
  SQLHighlight E dev sql refs = Normal out ->
  exists ms,
    warned out = (if dev then printUnmatchedReferences refs ms else None) /\
    forall r, In r (concat ms) <-> In r (all_tags (content out)).
Proof.
  intro H.
  destruct (SQLHighlight_inv _ _ _ _ _ H) as (g & h & ms & Hg & Hf & Hc & Hw).
  exists ms. split; [exact Hw|].
  destruct (forEach_matches _ _ _ _ _ _ Hf) as [Hms Hidx]. simpl in Hms, Hidx.
  assert (Hnd : NoDup (map fst h)).
  { rewrite (forEach_indices _ _ _ _ _ _ _ _ Hf). simpl. rewrite app_nil_r.
    apply NoDup_rev, NoDup_map_pred, NoDup_Object_keys.
    apply (groupBy_from_NoDup (filter has_location refs) [] g); [constructor|exact Hg]. }
  intro r. unfold all_tags. rewrite in_concat, in_flat_map. split.
  - intros (tags & Htags & Hr).
    apply Hms in Htags. destruct Htags as (i & es & Hin & Ht).
    exists (Highlighted es). split.
    + destruct (Hidx _ _ Hin) as [H0 Hlen].
      apply In_highlights_get in Hin; [|exact Hnd].
      assert (Hi : (Z.to_nat i < length (split_on "010"%char sql))%nat) by lia.
      apply nth_error_Some in Hi.
      destruct (nth_error (split_on "010"%char sql) (Z.to_nat i)) as [l|] eqn:Hl;
        [|congruence].
      apply (nth_error_In _ (Z.to_nat i)).
      rewrite Hc, map_indexed_nth, Hl. simpl.
      rewrite Z2Nat.id by lia. now rewrite Hin.
    + simpl. apply in_concat. eauto.
  - intros (c & Hcin & Hr).
    destruct c as [es|l]; [|destruct Hr].
    simpl in Hr. apply in_concat in Hr. destruct Hr as (tags & Ht & Hr).
    exists tags. split; [|exact Hr].
    apply Hms. apply In_nth_error in Hcin. destruct Hcin as [i Hi].
    rewrite Hc, map_indexed_nth in Hi.
    destruct (nth_error (split_on "010"%char sql) i) as [l|]; [|discriminate].
    simpl in Hi.
    destruct (highlights_get (Z.of_nat i) h) as [es0|] eqn:Hh; inversion Hi; subst.
    exists (Z.of_nat i), es. split; [apply highlights_get_In; exact Hh|exact Ht].
Qed.

Lemma includes_ext l1 l2 r :
  (In r l1 <-> In r l2) -> includes l1 r = includes l2 r.
Proof.
  intro H. unfold includes.
  destruct (in_dec Reference_eq_dec r l1), (in_dec Reference_eq_dec r l2);
    tauto || reflexivity.
Qed.

(** X5.  The warning of the development flag, read off the rendered lines:
    whenever the component returns under the flag, [console.warn] is called
    exactly when some reference of the list is shown as a tag nowhere, and
    it is called with those references, in the order of the list.  That
    includes every reference without [sqlLocation]. *)
Theorem X5_warning_lists_untagged (E : Engine) sql refs out :
  SQLHighlight E true sql refs = Normal out ->
  warned out =
    (let untagged :=
       filter (fun r => negb (includes (all_tags (content out)) r)) refs in
     if (0 <? length untagged)%nat then Some untagged else None) /\
  (forall r, In r refs -> sqlLocation r = None ->
             exists l, warned out = Some l /\ In r l).
Proof.
  intro H.
  destruct (referenceMatches_are_tags _ _ _ _ _ H) as (ms & Hw & Hiff).
  assert (Heq : warned out =
    (let untagged :=
       filter (fun r => negb (includes (all_tags (content out)) r)) refs in
     if (0 <? length untagged)%nat then Some untagged else None)).
  { rewrite Hw. unfold printUnmatchedReferences. simpl.
    rewrite (filter_ext _ (fun r => negb (includes (all_tags (content out)) r)));
      [reflexivity|].
    intro r. f_equal. apply includes_ext. apply Hiff. }
  split; [exact Heq|].
  intros r Hin Hloc.
  assert (Hr : In r (filter (fun r => negb (includes (all_tags (content out)) r)) refs)).
  { apply filter_In. split; [exact Hin|].
    unfold includes.
    destruct (in_dec Reference_eq_dec r (all_tags (content out))) as [Hyes|]; [|reflexivity].
    exfalso. unfold all_tags in Hyes. apply in_flat_map in Hyes.
    destruct Hyes as (c & Hc & Hrc). destruct c as [es|l]; [|destruct Hrc].
    simpl in Hrc. apply in_concat in Hrc. destruct Hrc as (tags & Ht & Hrt).
    apply In_nth_error in Hc. destruct Hc as [i Hi].
    unfold marks_tags in Ht. apply in_flat_map in Ht.
    destruct Ht as (e & He & Het). destruct e as [part|part tags0]; [destruct Het|].
    destruct Het as [<-|[]].
    destruct (attached_declares_line _ _ _ _ _ _ _ _ _ _ H Hi He Hrt) as (loc & Hl & _).
    congruence. }
  rewrite Heq. simpl.
  destruct (filter _ refs) as [|x l]; [destruct Hr|].
  simpl. eauto.
Qed.

Lemma X5_warning_lists_untagged_witness :
  warned {| content :=
              [Highlighted [span (Some ("SELECT " : str));
                            mark (Some ("a" : str)) [ref 1 "a" 1]; span (Some [])]];
            warned := Some [ref 2 "zz" 1; ref_nowhere 3 "a"] |} =
    (let untagged :=
       filter
         (fun r =>
            negb (includes
                    (all_tags
                       [Highlighted [span (Some ("SELECT " : str));
                                     mark (Some ("a" : str)) [ref 1 "a" 1];
                                     span (Some [])]]) r))
         [ref 1 "a" 1; ref 2 "zz" 1; ref_nowhere 3 "a"] in
     if (0 <? length untagged)%nat then Some untagged else None).
Proof.
  apply (proj1 (X5_warning_lists_untagged ecma ("SELECT a" : str)
                  [ref 1 "a" 1; ref 2 "zz" 1; ref_nowhere 3 "a"]
                  {| content :=
                       [Highlighted [span (Some ("SELECT " : str));
                                     mark (Some ("a" : str)) [ref 1 "a" 1];
                                     span (Some [])]];
                     warned := Some [ref 2 "zz" 1; ref_nowhere 3 "a"] |}
                  ltac:(vm_compute; reflexivity))).
Defined.

(** ** More on the snippet pattern builder *)

Lemma pattern_of_char_no_space c :
  forallb (fun x => negb (is_space x)) (pattern_of_char c) = true.
Proof.
  unfold pattern_of_char.
  destruct (c =? "(")%char; [reflexivity|].
  destruct (c =? ")")%char; [reflexivity|].
  destruct (is_space c) eqn:Hc; [reflexivity|].
  simpl. now rewrite Hc.
Qed.

Lemma pattern_of_char_length c :
  length (pattern_of_char c) = (if rewritten c then 3 else 1)%nat.
Proof.
  unfold pattern_of_char, rewritten.
  destruct (c =? "(")%char; [reflexivity|].
  destruct (c =? ")")%char; [reflexivity|].
  destruct (is_space c); reflexivity.
Qed.

Lemma pattern_of_char_blank c :
  pattern_of_char (if is_space c then " "%char else c) = pattern_of_char c.
Proof.
  destruct (is_space c) eqn:Hc; [|reflexivity].
  unfold pattern_of_char. rewrite Hc.
  destruct c as [[|] [|] [|] [|] [|] [|] [|] [|]]; try discriminate Hc; reflexivity.
Qed.

Lemma optimizedSnippet_length snippet :
  length (optimizedSnippet snippet)
    = (length snippet + 2 * length (filter rewritten snippet))%nat.
Proof.
  rewrite optimizedSnippet_flat_map.
  induction snippet as [|c snippet IH]; [reflexivity|].
  simpl. rewrite length_app, IH, pattern_of_char_length.
  destruct (rewritten c); simpl; lia.
Qed.

(** X6.  The built pattern never contains a whitespace character; it is
    two characters longer than the snippet for each parenthesis or
    whitespace character of the snippet, so it is the snippet itself
    exactly when the snippet has none; and it does not depend on which
    whitespace characters the snippet uses. *)
Theorem X6_pattern_text snippet :
  forallb (fun c => negb (is_space c)) (optimizedSnippet snippet) = true /\
  length (optimizedSnippet snippet)
    = (length snippet + 2 * length (filter rewritten snippet))%nat /\
  (optimizedSnippet snippet = snippet <-> filter rewritten snippet = []) /\
  optimizedSnippet (blank snippet) = optimizedSnippet snippet.
Proof.
  split; [|split; [apply optimizedSnippet_length|split]].
  - rewrite optimizedSnippet_flat_map.
    induction snippet as [|c snippet IH]; [reflexivity|].
    simpl. rewrite forallb_app, pattern_of_char_no_space, IH. reflexivity.
  - split.
    + intro H. apply (f_equal (@length ascii)) in H.
      rewrite optimizedSnippet_length in H.
      destruct (filter rewritten snippet); [reflexivity|simpl in H; lia].
    + rewrite optimizedSnippet_flat_map.
      induction snippet as [|c snippet IH]; [reflexivity|].
      simpl. destruct (rewritten c) eqn:Hc; [discriminate|].
      intro H. rewrite (IH H). unfold pattern_of_char, rewritten in *.
      destruct (c =? "(")%char; [discriminate|].
      destruct (c =? ")")%char; [discriminate|].
      destruct (is_space c); [discriminate|reflexivity].
  - rewrite !optimizedSnippet_flat_map. unfold blank.
    induction snippet as [|c snippet IH]; [reflexivity|].
    simpl. now rewrite pattern_of_char_blank, IH.
Qed.

(** X7.  [createSnippetsRegex] accepts every list of plain snippets: it
    does not throw, and the pattern it returns has exactly one capturing
    group, which encloses the whole pattern. *)
Theorem X7_plain_snippets_compile snippets :
  forallb plain snippets = true ->
  exists R body,
    createSnippetsRegex ecma (map optimizedSnippet snippets) = Normal R /\
    re_tree R = Group 0 body /\
    groups body = [] /\
    re_groups R = 1%nat.
Proof.
  intro Hp.
  destruct (ParserFacts.createSnippetsRegex_plain snippets Hp)
    as (R & HR & body & Hfree & Htree & Hn).
  exists R, body. auto.
Qed.

Lemma X7_plain_snippets_compile_witness :
  exists R body,
    createSnippetsRegex ecma
      (map optimizedSnippet [("count(x)" : str); ("t.a" : str); ("a || b" : str)])
      = Normal R /\
    re_tree R = Group 0 body /\
    groups body = [] /\
    re_groups R = 1%nat.
Proof.
  apply (X7_plain_snippets_compile
           [("count(x)" : str); ("t.a" : str); ("a || b" : str)]).
  vm_compute. reflexivity.
Defined.

(** ** Quantifiers after a rewritten character *)

Module QuantifierFacts.

Import ParserFacts.

Lemma tokenize_quantifier c q rest :
  In (c, q) [("*"%char, QStar); ("+"%char, QPlus); ("?"%char, QOpt)] ->
  starts_q rest = false ->
  tokenize None (c :: rest) = tcons (TQuant q true) (tokenize None rest).
Proof.
  intros Hc Hq.
  destruct rest as [|x rest].
  - destruct Hc as [Hc|[Hc|[Hc|[]]]]; inversion Hc; subst; reflexivity.
  - simpl in Hq.
    destruct Hc as [Hc|[Hc|[Hc|[]]]]; inversion Hc; subst;
      simpl; rewrite Hq; reflexivity.
Qed.

Lemma tokenize_tok_char c rest :
  negb (special c) || quantifier_char c = true ->
  starts_q rest = false ->
  tokenize None (pattern_of_char c ++ rest) = tcons_all (tok c) (tokenize None rest) /\
  starts_q (pattern_of_char c ++ rest) = false.
Proof.
  intros Hc Hq. unfold pattern_of_char, tok.
  destruct (c =? "(")%char eqn:Ho; [|destruct (c =? ")")%char eqn:Hcl;
                                      [|destruct (is_space c) eqn:Hsp]].
  - split; [|reflexivity].
    change (tokenize None (("\(?" : str) ++ rest))
      with (tcons (TAtom (Chr "("%char)) (tokenize None ("?"%char :: rest))).
    rewrite (tokenize_quantifier "?"%char QOpt rest); [reflexivity|simpl; auto|exact Hq].
  - split; [|reflexivity].
    change (tokenize None (("\)?" : str) ++ rest))
      with (tcons (TAtom (Chr ")"%char)) (tokenize None ("?"%char :: rest))).
    rewrite (tokenize_quantifier "?"%char QOpt rest); [reflexivity|simpl; auto|exact Hq].
  - split; [|reflexivity].
    change (tokenize None (("\s*" : str) ++ rest))
      with (tcons (TAtom (Class false CSpace)) (tokenize None ("*"%char :: rest))).
    rewrite (tokenize_quantifier "*"%char QStar rest); [reflexivity|simpl; auto|exact Hq].
  - destruct (c =? "*")%char eqn:Hst; [|destruct (c =? "+")%char eqn:Hpl].
    + apply Ascii.eqb_eq in Hst. subst c. split; [|reflexivity].
      apply (tokenize_quantifier "*"%char QStar rest); [simpl; auto|exact Hq].
    + apply Ascii.eqb_eq in Hpl. subst c. split; [|reflexivity].
      apply (tokenize_quantifier "+"%char QPlus rest); [simpl; auto|exact Hq].
    + assert (Hs : special c = false).
      { unfold quantifier_char in Hc. rewrite Hst, Hpl in Hc. simpl in Hc.
        rewrite orb_false_r in Hc. now apply negb_true_iff. }
      split; [|simpl; apply special_not_q; exact Hs].
      destruct (c =? ".")%char eqn:Hdot; [|destruct (c =? "|")%char eqn:Hbar].
      * apply Ascii.eqb_eq in Hdot. subst c. reflexivity.
      * apply Ascii.eqb_eq in Hbar. subst c. reflexivity.
      * simpl. apply tokenize_ordinary; [exact Hs|].
        unfold structural. simpl. now rewrite Ho, Hcl, Hdot, Hbar.
Qed.

(** The pattern text of tokenizable text is read character by character. *)
Lemma tokenize_tok text : forall rest,
  tokenizable text = true -> starts_q rest = false ->
  tokenize None (optimizedSnippet text ++ rest)
    = tcons_all (flat_map tok text) (tokenize None rest) /\
  starts_q (optimizedSnippet text ++ rest) = false.
Proof.
  rewrite optimizedSnippet_flat_map.
  induction text as [|c text IH]; intros rest Ht Hq.
  - simpl. auto.
  - simpl in Ht. apply andb_prop in Ht. destruct Ht as [Hc Ht].
    destruct (IH rest Ht Hq) as [Htok Hq'].
    simpl. rewrite <- app_assoc.
    destruct (tokenize_tok_char c _ Hc Hq') as [Htok0 Hq0].
    split; [|exact Hq0].
    rewrite Htok0, Htok, tcons_all_app. reflexivity.
Qed.

Lemma tok_flat_kind text : Forall flat_kind (flat_map tok text).
Proof.
  induction text as [|c text IH]; [constructor|].
  simpl. apply Forall_app. split; [|exact IH].
  unfold tok.
  repeat match goal with
         | |- context [if ?b then _ else _] => destruct b
         end; repeat constructor.
Qed.

Lemma tok_rewritten c :
  rewritten c = true -> exists x y, tok c = [TAtom x; TQuant y true].
Proof.
  unfold tok, rewritten.
  destruct (c =? "(")%char; [eauto|].
  destruct (c =? ")")%char; [eauto|].
  destruct (is_space c); [eauto|discriminate].
Qed.

Lemma tok_quantifier q :
  quantifier_char q = true -> exists q', tok q = [TQuant q' true].
Proof.
  destruct q as [[|] [|] [|] [|] [|] [|] [|] [|]]; intro H;
    try discriminate H; vm_compute; eauto.
Qed.

(** A quantifier right after a quantifier is refused, whatever follows. *)
Lemma build_two_quantifiers ts1 : Forall flat_kind ts1 ->
  forall q1 g1 q2 g2 ts2 cur stack n,
    build (ts1 ++ TQuant q1 g1 :: TQuant q2 g2 :: ts2) cur stack n = BadSyntax.
Proof.
  induction 1 as [|t ts1 Ht _ IH]; intros q1 g1 q2 g2 ts2 cur stack n.
  - simpl. destruct (f_terms cur) as [|r rs]; [reflexivity|].
    destruct (f_quantified cur); reflexivity.
  - destruct t as [r| | | | |q g]; simpl in Ht; try contradiction; simpl.
    + apply IH.
    + apply IH.
    + destruct (f_terms cur) as [|r rs]; [reflexivity|].
      destruct (f_quantified cur); [reflexivity|]. apply IH.
Qed.

Lemma join_mid (sep : str) before s after :
  join sep (before ++ s :: after)
    = flat_map (fun x => x ++ sep) before ++ s ++ flat_map (fun x => sep ++ x) after.
Proof.
  assert (Hbase : forall s after,
            join sep (s :: after) = s ++ flat_map (fun x => sep ++ x) after).
  { intros s0 after0. revert s0.
    induction after0 as [|y after0 IH]; intro s0; [symmetry; apply app_nil_r|].
    change (join sep (s0 :: y :: after0)) with (s0 ++ sep ++ join sep (y :: after0)).
    rewrite IH. simpl. now rewrite <- app_assoc. }
  induction before as [|x before IH]; [apply Hbase|].
  assert (Hcons : join sep ((x :: before) ++ s :: after)
                  = x ++ sep ++ join sep (before ++ s :: after)).
  { simpl. destruct (before ++ s :: after) eqn:Hl; [|reflexivity].
    destruct before; discriminate. }
  rewrite Hcons, IH. simpl. now rewrite <- !app_assoc.
Qed.

Lemma optimizedSnippet_join snippets :
  join ("|" : str) (map optimizedSnippet snippets)
    = optimizedSnippet (join ("|" : str) snippets).
Proof.
  induction snippets as [|x l IH]; [reflexivity|].
  destruct l as [|y l']; [reflexivity|].
  change (join ("|" : str) (map optimizedSnippet (x :: y :: l')))
    with (optimizedSnippet x ++ ("|" : str)
            ++ join ("|" : str) (map optimizedSnippet (y :: l'))).
  change (join ("|" : str) (x :: y :: l'))
    with (x ++ ("|" : str) ++ join ("|" : str) (y :: l')).
  rewrite IH, !optimizedSnippet_app. reflexivity.
Qed.

Lemma tokenizable_app a b : tokenizable (a ++ b) = tokenizable a && tokenizable b.
Proof. apply forallb_app. Qed.

Lemma tokenizable_flat_map (f : str -> str) l :
  (forall x, tokenizable x = true -> tokenizable (f x) = true) ->
  forallb tokenizable l = true -> tokenizable (flat_map f l) = true.
Proof.
  intro Hf. induction l as [|x l IH]; simpl; intro H; [reflexivity|].
  apply andb_prop in H. destruct H as [Hx Hl].
  rewrite tokenizable_app, (Hf x Hx), (IH Hl). reflexivity.
Qed.

(** The pattern of a line is refused when, in one of its snippets, "*" or
    "+" directly follows a parenthesis or a whitespace character. *)
Lemma createSnippetsRegex_refused snippets a c q b :
  forallb tokenizable snippets = true ->
  In (a ++ [c; q] ++ b) snippets ->
  rewritten c = true ->
  quantifier_char q = true ->
  createSnippetsRegex ecma (map optimizedSnippet snippets) = Throw SyntaxError.
Proof.
  intros Hall Hin Hc Hq.
  apply in_split in Hin. destruct Hin as (before & after & ->).
  rewrite forallb_app in Hall. apply andb_prop in Hall. destruct Hall as [Hb Hrest].
  cbn [forallb] in Hrest. apply andb_prop in Hrest. destruct Hrest as [Hs Ha].
  rewrite !tokenizable_app in Hs.
  apply andb_prop in Hs. destruct Hs as [Hta Hs].
  apply andb_prop in Hs. destruct Hs as [Hcq Htb].
  set (A := flat_map (fun x => x ++ ("|" : str)) before ++ a).
  set (B := b ++ flat_map (fun x => ("|" : str) ++ x) after).
  assert (HA : tokenizable A = true).
  { unfold A. rewrite tokenizable_app, Hta, andb_true_r.
    apply tokenizable_flat_map; [|exact Hb].
    intros x Hx. now rewrite tokenizable_app, Hx. }
  assert (HB : tokenizable B = true).
  { unfold B. rewrite tokenizable_app, Htb. cbn [andb].
    apply tokenizable_flat_map; [|exact Ha].
    intros x Hx. now rewrite tokenizable_app, Hx. }
  assert (HT : tokenizable (A ++ [c; q] ++ B) = true)
    by now rewrite !tokenizable_app, HA, Hcq, HB.
  assert (Hjoin : join ("|" : str) (before ++ (a ++ [c; q] ++ b) :: after)
                  = A ++ [c; q] ++ B).
  { rewrite join_mid. unfold A, B. now rewrite <- !app_assoc. }
  unfold createSnippetsRegex. change (re_new ecma) with regexp_new.
  unfold regexp_new, parse.
  rewrite optimizedSnippet_join, Hjoin.
  destruct (tokenize_tok (A ++ [c; q] ++ B) (")" : str) HT eq_refl) as [Htok Hsq].
  set (body := optimizedSnippet (A ++ [c; q] ++ B) ++ (")" : str)) in *.
  assert (Hopen : tokenize None ("("%char :: body) = tcons TOpen (tokenize None body)).
  { destruct body as [|x body']; [reflexivity|].
    simpl in Hsq. simpl. rewrite Hsq. reflexivity. }
  change (("(" : str) ++ body) with ("("%char :: body).
  rewrite Hopen, Htok.
  change (tokenize None (")" : str)) with (Parsed [TClose]).
  rewrite tcons_all_parsed, !flat_map_app.
  destruct (tok_rewritten c Hc) as (x & y & Hx).
  destruct (tok_quantifier q Hq) as (q' & Hq').
  change (flat_map tok [c; q]) with (tok c ++ tok q ++ []).
  rewrite Hx, Hq'.
  replace ((flat_map tok A
              ++ ([TAtom x; TQuant y true] ++ [TQuant q' true] ++ [])
              ++ flat_map tok B) ++ [TClose])
    with ((flat_map tok A ++ [TAtom x])
            ++ TQuant y true :: TQuant q' true :: flat_map tok B ++ [TClose])
    by (rewrite <- !app_assoc; reflexivity).
  cbn [tcons build].
  rewrite (build_two_quantifiers (flat_map tok A ++ [TAtom x])); [reflexivity|].
  apply Forall_app. split; [apply tok_flat_kind|repeat constructor].
Qed.

End QuantifierFacts.

(** X8.  A snippet in which "*" or "+" directly follows a parenthesis or a
    whitespace character (such as "count(*)" or "SELECT *") is rewritten
    into a pattern with two quantifiers in a row.  When the snippets of its
    line are otherwise made of plain characters and these two quantifiers,
    [createSnippetsRegex] throws a SyntaxError for that line, and the
    component does not return, whatever the text and the other lines. *)
Theorem X8_quantifier_after_rewritten dev sql refs r loc a c q b :
  In r refs ->
  sqlLocation r = Some loc ->
  sqlSnippet r = a ++ [c; q] ++ b ->
  rewritten c = true ->
  quantifier_char q = true ->
  (forall r', In r' refs -> declares (line loc) r' = true ->
              tokenizable (sqlSnippet r') = true) ->
  createSnippetsRegex ecma
    (map (fun r => optimizedSnippet (sqlSnippet r))
       (filter (declares (line loc)) refs)) = Throw SyntaxError /\
  forall out, SQLHighlight ecma dev sql refs <> Normal out.
Proof.
  intros Hin Hloc Hs Hc Hq Hall.
  assert (Hr : In r (filter (declares (line loc)) refs)).
  { apply filter_In. split; [exact Hin|].
    unfold declares. rewrite Hloc. apply Z.eqb_refl. }
  assert (Hthrow : createSnippetsRegex ecma
            (map (fun r => optimizedSnippet (sqlSnippet r))
               (filter (declares (line loc)) refs)) = Throw SyntaxError).
  { rewrite <- map_map.
    apply (QuantifierFacts.createSnippetsRegex_refused _ a c q b); [| |exact Hc|exact Hq].
    - apply forallb_forall. intros x Hx. apply in_map_iff in Hx.
      destruct Hx as (r' & <- & Hr'). apply filter_In in Hr'.
      apply Hall; tauto.
    - rewrite <- Hs. apply in_map. exact Hr. }
  split; [exact Hthrow|].
  intros out H.
  destruct (SQLHighlight_inv _ _ _ _ _ H) as (g & h & ms & Hg & Hf & _).
  pose proof (referenceGroups_get _ _ (line loc) Hg) as Hget.
  destruct (filter (declares (line loc)) refs) as [|r0 rs0] eqn:Hfl; [destruct Hr|].
  pose proof Hget as Hkey. apply group_get_key, In_Object_keys in Hkey.
  destruct (forEach_reaches _ _ _ _ _ Hf Hkey) as ([h0 ms0] & [h1 ms1] & Hbody).
  destruct (highlight_line_inv _ _ _ _ _ _ _ _ Hbody)
    as (rs & regex & text & es & ms' & Hrs & Hre & _).
  rewrite Hget in Hrs. inversion Hrs; subst rs. congruence.
Qed.

Lemma X8_quantifier_after_rewritten_witness :
  createSnippetsRegex ecma
    (map (fun r => optimizedSnippet (sqlSnippet r))
       (filter (declares (line {| line := 1 |})) [ref 1 "count(*)" 1]))
    = Throw SyntaxError /\
  forall out,
    SQLHighlight ecma false "SELECT count(*) FROM t" [ref 1 "count(*)" 1]
      <> Normal out.
Proof.
  apply (X8_quantifier_after_rewritten false ("SELECT count(*) FROM t" : str)
           [ref 1 "count(*)" 1] (ref 1 "count(*)" 1) {| line := 1 |}
           ("count" : str) "("%char "*"%char (")" : str)).
  - left. reflexivity.
  - reflexivity.
  - reflexivity.
  - reflexivity.
  - reflexivity.
  - intros r' [<-|[]] _. vm_compute. reflexivity.
Defined.

(** ** What the association test decides *)

Module AssociationFacts.

Import ParserFacts LiteralFacts.

Lemma tokenize_literal_app a rest :
  literal a = true ->
  tokenize None (a ++ rest) = tcons_all (atoms a) (tokenize None rest).
Proof.
  induction a as [|c a IH]; intro H; [reflexivity|].
  simpl in H. apply andb_prop in H. destruct H as [Hc Ha].
  destruct (literal_char c Hc) as (H1 & H2).
  change ((c :: a) ++ rest) with (c :: a ++ rest).
  rewrite tokenize_ordinary by assumption.
  now rewrite (IH Ha).
Qed.

Lemma starts_q_literal b rest :
  literal b = true -> starts_q rest = false -> starts_q (b ++ rest) = false.
Proof.
  destruct b as [|c b]; [auto|].
  simpl. intros H _. apply andb_prop in H. destruct H as [Hc _].
  destruct (literal_char c Hc) as (H1 & _). apply special_not_q. exact H1.
Qed.

Lemma tokenize_open rest :
  starts_q rest = false ->
  tokenize None ("("%char :: rest) = tcons TOpen (tokenize None rest).
Proof.
  destruct rest as [|x rest]; [reflexivity|].
  simpl. intros ->. reflexivity.
Qed.

Lemma build_atoms' l cur stack n ts :
  build (atoms l ++ ts) cur stack n =
    build ts
      {| f_alts := f_alts cur;
         f_terms := rev (map Chr l) ++ f_terms cur;
         f_quantified := match l with [] => f_quantified cur | _ :: _ => false end |}
      stack n.
Proof. apply build_atoms. Qed.



(** A snippet with one parenthesis and no partner for it is refused. *)
Lemma parse_unpaired a p b :
  literal a = true -> literal b = true ->
  (p = "("%char \/ p = ")"%char) ->
  parse (a ++ [p] ++ b) = BadSyntax.
Proof.
  intros Ha Hb Hp. unfold parse.
  rewrite (tokenize_literal_app a _ Ha).
  destruct Hp as [-> | ->].
  - change (["("%char] ++ b) with ("("%char :: b).
    rewrite tokenize_open
      by (rewrite <- (app_nil_r b); apply starts_q_literal; [exact Hb|reflexivity]).
    rewrite (tokenize_literal b Hb).
    cbn [tcons]. rewrite tcons_all_parsed.
    rewrite build_atoms'. cbn [build].
    change (map (fun c0 => TAtom (Chr c0)) b) with (atoms b).
    rewrite <- (app_nil_r (atoms b)), build_atoms'. reflexivity.
  - change (tokenize None ([")"%char] ++ b)) with (tcons TClose (tokenize None b)).
    rewrite (tokenize_literal b Hb).
    cbn [tcons]. rewrite tcons_all_parsed.
    rewrite build_atoms'. reflexivity.
Qed.


Lemma m_lits w : forall s caps k,
  m false (lits w) s caps k
    = if prefixb w s then k (skipn (length w) s) caps else None.
Proof.
  unfold lits. induction w as [|c w IH]; intros s caps k; [reflexivity|].
  change (map Chr (c :: w)) with (Chr c :: map Chr w).
  rewrite m_mkSeq_cons. simpl. unfold one.
  destruct s as [|x s]; [reflexivity|].
  unfold char_eq. simpl. destruct (c =? x)%char; [apply IH|reflexivity].
Qed.



Lemma match_lits w s caps :
  is_some (m false (lits w) s caps (fun s' caps' => Some (s', caps')))
    = prefixb w s.
Proof. rewrite m_lits. destruct (prefixb w s); reflexivity. Qed.

(** Testing with a pattern that matches the text [w] and nothing else, and
    has no flag, decides whether [w] occurs in the text under test. *)
Lemma test_occurs R w :
  global (re_flags R) = false ->
  (forall size s, is_some (match_at R size s) = prefixb w s) ->
  forall t, fst (regexp_test R 0 t) = occursb w t.
Proof.
  intros Hg Hm t. unfold regexp_test. rewrite Hg. simpl.
  generalize (length t). intro size.
  induction t as [|x t IH]; simpl.
  - specialize (Hm size []). destruct (match_at R size []) as [[e caps]|];
      simpl in Hm; rewrite <- Hm; reflexivity.
  - specialize (Hm size (x :: t)).
    destruct (match_at R size (x :: t)) as [[e caps]|]; simpl in Hm; rewrite <- Hm.
    + reflexivity.
    + simpl. destruct (search R size t) as [[e caps]|]; exact IH.
Qed.

Lemma match_at_is_some R size s :
  is_some (match_at R size s)
    = is_some (m (ignoreCase (re_flags R)) (re_tree R) s (repeat None (re_groups R))
                 (fun s' caps => Some (s', caps))).
Proof.
  unfold match_at. destruct (m _ _ _ _ _) as [[s' caps]|]; reflexivity.
Qed.

End AssociationFacts.

Lemma snippet_test_exact part r R w :
  regexp_new (sqlSnippet r) flags_none = Normal R ->
  (forall size s, is_some (match_at R size s) = prefixb w s) ->
  snippet_test ecma part r = Normal (occursb w (ToString part)).
Proof.
  intros HR Hm. unfold snippet_test. change (re_new ecma) with regexp_new.
  rewrite HR. cbn [bind]. change (re_test ecma) with regexp_test.
  rewrite (AssociationFacts.test_occurs R w); [reflexivity| |exact Hm].
  unfold regexp_new in HR. destruct (parse (sqlSnippet r)) as [[tree n]| |];
    inversion HR. reflexivity.
Qed.

(** X9.  The association test on a literal snippet: a reference whose
    snippet has no special character, parenthesis, dot or bar passes on a
    piece exactly when the snippet occurs in the piece as it is written,
    letter case and whitespace included. *)
Theorem X9_literal_association part r :
  literal (sqlSnippet r) = true ->
  snippet_test ecma part r = Normal (occursb (sqlSnippet r) (ToString part)).
Proof.
  intro Hlit.
  apply (snippet_test_exact part r
           {| re_tree := lits (sqlSnippet r); re_groups := 0; re_flags := flags_none |}).
  - unfold regexp_new. rewrite (LiteralFacts.parse_literal _ Hlit). reflexivity.
  - intros size s. rewrite AssociationFacts.match_at_is_some.
    apply AssociationFacts.match_lits.
Qed.

Lemma X9_literal_association_witness :
  snippet_test ecma (Some ("select  a" : str)) (ref 1 "select a" 1)
    = Normal (occursb (sqlSnippet (ref 1 "select a" 1))
                (ToString (Some ("select  a" : str)))).
Proof.
  apply (X9_literal_association (Some ("select  a" : str)) (ref 1 "select a" 1)).
  vm_compute. reflexivity.
Defined.



Lemma filter_c_all_normal (pred : Reference -> completion bool) rs tags :
  filter_c pred rs = Normal tags ->
  forall r, In r rs -> exists b, pred r = Normal b.
Proof.
  revert tags. induction rs as [|r0 rs IH]; simpl; intros tags H r Hin; [destruct Hin|].
  destruct (pred r0) as [b| |] eqn:Hp; simpl in H; try discriminate.
  destruct (filter_c pred rs) as [keep| |] eqn:Hk; simpl in H; try discriminate.
  destruct Hin as [->|Hin]; [eauto|]. eapply IH; eauto.
Qed.

(** X11.  A snippet with a single parenthesis and nothing else special
    (such as "count(x") is accepted when the line is split but refused by
    the association test, which throws a SyntaxError on every piece.  So
    when the component returns, the line such a reference declares has no
    matched segment at all. *)
Theorem X11_unpaired_parenthesis dev sql refs r loc a p b :
  In r refs ->
  sqlLocation r = Some loc ->
  sqlSnippet r = a ++ [p] ++ b ->
  literal a = true -> literal b = true ->
  (p = "("%char \/ p = ")"%char) ->
  (forall part, snippet_test ecma part r = Throw SyntaxError) /\
  (forall out i es part tags,
      SQLHighlight ecma dev sql refs = Normal out ->
      (Z.of_nat i + 1)%Z = line loc ->
      nth_error (content out) i = Some (Highlighted es) ->
      ~ In (mark part tags) es).
Proof.
  intros Hin Hloc Hs Ha Hb Hp.
  assert (Hthrow : forall part, snippet_test ecma part r = Throw SyntaxError).
  { intro part. unfold snippet_test. change (re_new ecma) with regexp_new.
    unfold regexp_new. rewrite Hs, (AssociationFacts.parse_unpaired a p b Ha Hb Hp).
    reflexivity. }
  split; [exact Hthrow|].
  intros out i es part tags H Hi Hnth Hmark.
  destruct (highlighted_line _ _ _ _ _ _ _ H Hnth) as (g & Hg & Hline).
  destruct Hline as (rs & regex & text & ms & Hget & _ & _ & Hparts).
  destruct (map_parts_spec _ _ _ _ _ _ _ Hparts) as [_ Hmarks].
  destruct (Hmarks _ _ Hmark) as [_ Hf].
  rewrite (referenceGroups_get _ _ _ Hg) in Hget.
  assert (Hr : In r (filter (declares (Z.of_nat i + 1)) refs)).
  { apply filter_In. split; [exact Hin|].
    unfold declares. rewrite Hloc. apply Z.eqb_eq. lia. }
  destruct (filter (declares (Z.of_nat i + 1)) refs) as [|r0 rs0]; [destruct Hr|].
  inversion Hget; subst rs.
  destruct (filter_c_all_normal _ _ _ Hf r Hr) as [bb Hbb].
  rewrite Hthrow in Hbb. discriminate.
Qed.

Lemma X11_unpaired_parenthesis_witness :
  snippet_test ecma (Some ("count(x" : str)) (ref 1 "count(x" 1) = Throw SyntaxError /\
  ~ In (mark (Some ("a" : str)) [ref 1 "count(x" 1]) [span (Some ("SELECT a" : str))].
Proof.
  assert (X : In (ref 1 "count(x" 1) [ref 1 "count(x" 1]) by (left; reflexivity).
  assert (Hp : "("%char = "("%char \/ "("%char = ")"%char) by (left; reflexivity).
  pose proof (X11_unpaired_parenthesis false ("SELECT a" : str) [ref 1 "count(x" 1]
                (ref 1 "count(x" 1) {| line := 1 |} ("count" : str) "("%char
                ("x" : str) X eq_refl eq_refl eq_refl eq_refl Hp) as [Hthrow Hline].
  split.
  - apply Hthrow.
  - apply (Hline {| content := [Highlighted [span (Some ("SELECT a" : str))]];
                    warned := None |} 0%nat).
    + vm_compute. reflexivity.
    + reflexivity.
    + reflexivity.
Defined.

(** ** The earlier variant *)

Module VariantFacts.

Lemma variant_line_inv (E : Engine) g result k result' :
  Part000.highlight_line E g result k = Normal result' ->
  exists rs regex text es,
    group_get k g = Some rs /\
    createSnippetsRegex E (map (fun r => optimizedSnippet (sqlSnippet r)) rs)
      = Normal regex /\
    array_get result (k - 1) = Some (Text text) /\
    Part000.map_parts E regex rs 0 (re_split E regex text) = Normal es /\
    result' = Part000.array_set result (Z.to_nat (k - 1)) (Highlighted es).
Proof.
  unfold Part000.highlight_line, createSnippetsRegex. intro H.
  destruct (group_get k g) as [rs|]; [|discriminate].
  destruct (re_new E _ flags_gi) as [regex| |] eqn:Hre; simpl in H; try discriminate.
  destruct (array_get result (k - 1)) as [[es0|text]|]; try discriminate.
  destruct (Part000.map_parts E regex rs 0 (re_split E regex text)) as [es| |] eqn:Hm;
    simpl in H; try discriminate.
  inversion H; subst. exists rs, regex, text, es. auto 10.
Qed.

Lemma variant_parts_spec (E : Engine) regex rs : forall parts lastIndex es,
  Part000.map_parts E regex rs lastIndex parts = Normal es ->
  map element_text es = map rendered parts /\
  (forall part tags, In (mark part tags) es ->
     filter_c (Part000.snippet_test E part) rs = Normal tags).
Proof.
  induction parts as [|part parts IH]; simpl; intros lastIndex es H.
  - inversion H; subst. split; [reflexivity|intros ? ? []].
  - destruct (re_test E regex lastIndex (ToString part)) as [matched lastIndex'].
    destruct matched.
    + destruct (filter_c (Part000.snippet_test E part) rs) as [tags0| |] eqn:Hf;
        simpl in H; try discriminate.
      destruct (Part000.map_parts E regex rs lastIndex' parts) as [es0| |] eqn:Hm;
        simpl in H; try discriminate.
      inversion H; subst; clear H.
      destruct (IH _ _ Hm) as [Htxt Hmarks].
      split; [simpl; now rewrite Htxt|].
      intros p tags [Heq|Hin]; [inversion Heq; subst; exact Hf|eauto].
    + destruct (Part000.map_parts E regex rs lastIndex' parts) as [es0| |] eqn:Hm;
        simpl in H; try discriminate.
      inversion H; subst; clear H.
      destruct (IH _ _ Hm) as [Htxt Hmarks].
      split; [simpl; now rewrite Htxt|].
      intros p tags [Heq|Hin]; [discriminate|eauto].
Qed.

Lemma array_set_length {A} (a : list A) i v :
  length (Part000.array_set a i v) = length a.
Proof.
  revert i. induction a as [|x a IH]; intro i; [reflexivity|].
  destruct i; simpl; [reflexivity|]. now rewrite IH.
Qed.

Lemma array_set_nth {A} (a : list A) i v j :
  nth_error (Part000.array_set a i v) j =
    if (j =? i)%nat && (i <? length a)%nat then Some v else nth_error a j.
Proof.
  revert i j. induction a as [|x a IH]; intros i j.
  - simpl. rewrite andb_false_r. reflexivity.
  - destruct i as [|i], j as [|j]; simpl; try reflexivity.
    rewrite IH. reflexivity.
Qed.

Lemma array_set_map {A B} (f : A -> B) (a : list A) i v x :
  nth_error a i = Some x -> f v = f x ->
  map f (Part000.array_set a i v) = map f a.
Proof.
  revert i. induction a as [|y a IH]; intros i Hn Hf; [reflexivity|].
  destruct i as [|i]; simpl in *.
  - inversion Hn; subst. now rewrite Hf.
  - now rewrite (IH i Hn Hf).
Qed.

Lemma array_get_nat {A} (a : list A) k x :
  array_get a k = Some x ->
  (0 <= k)%Z /\ nth_error a (Z.to_nat k) = Some x.
Proof.
  unfold array_get. destruct (0 <=? k)%Z eqn:Hk; [|discriminate].
  apply Z.leb_le in Hk. auto.
Qed.

(** Grouping the whole list returns only if every reference has a
    location. *)
Lemma groupBy_from_all_located refs : forall g g',
  groupBy_from g refs location_line = Normal g' ->
  forall r, In r refs -> exists k, location_line r = Normal k.
Proof.
  induction refs as [|r0 refs IH]; simpl; intros g g' H r Hin; [destruct Hin|].
  destruct (location_line r0) as [k0| |] eqn:Hr0; simpl in H; try discriminate.
  destruct Hin as [->|Hin]; [eauto|]. eapply IH; eauto.
Qed.

Lemma groups_get refs g k :
  groupBy refs location_line = Normal g ->
  group_get k g =
    match filter (declares k) refs with
    | [] => None
    | l => Some l
    end.
Proof. intro H. rewrite (groupBy_from_get _ _ _ k H). reflexivity. Qed.

Lemma filter_c_constant (pred : Reference -> completion bool) rs tags :
  (forall r r', pred r = pred r') ->
  filter_c pred rs = Normal tags -> tags = [] \/ tags = rs.
Proof.
  intros Hconst H.
  destruct rs as [|r0 rs]; [left; simpl in H; now inversion H|].
  assert (Hall : forall l tags0,
            filter_c pred l = Normal tags0 ->
            match pred r0 with
            | Normal true => tags0 = l
            | Normal false => tags0 = []
            | _ => l = []
            end).
  { induction l as [|x l IH]; simpl; intros tags0 H0.
    - inversion H0; subst. destruct (pred r0) as [[|]| |]; reflexivity.
    - rewrite (Hconst x r0) in H0.
      destruct (pred r0) as [b| |]; simpl in H0; try discriminate.
      destruct (filter_c pred l) as [keep| |]; simpl in H0; try discriminate.
      specialize (IH keep eq_refl). inversion H0; subst.
      destruct b; subst; reflexivity. }
  specialize (Hall _ _ H).
  destruct (pred r0) as [[|]| |]; auto; discriminate.
Qed.

Lemma forEach_reaches_with {S K} (body : S -> K -> completion S) (P : S -> Prop) :
  (forall st k st', P st -> body st k = Normal st' -> P st') ->
  forall keys st st' k,
    P st -> forEach body st keys = Normal st' -> In k keys ->
    exists st0 st1, P st0 /\ body st0 k = Normal st1.
Proof.
  intro Hstep. induction keys as [|k0 keys IH]; intros st st' k HP H Hin;
    [destruct Hin|].
  rewrite forEach_cons in H.
  destruct (body st k0) as [st1| |] eqn:Hb; simpl in H; try discriminate.
  destruct Hin as [->|Hin]; [eauto|].
  eapply IH; [|exact H|exact Hin]. eapply Hstep; eauto.
Qed.

End VariantFacts.

(** X12.  The variant keeps the text as well: for plain snippets, whenever
    it returns, it renders one entry for each line of [sql], and the texts
    of the elements of an entry, concatenated, are that line. *)
Theorem X12_variant_reconstruction sql refs result :
  forallb (fun r => plain (sqlSnippet r)) refs = true ->
  Part000.SQLHighlight ecma sql refs = Normal result ->
  map children_text result = split_on newline sql.
Proof.
  intros Hp H. unfold Part000.SQLHighlight in H.
  destruct (groupBy refs location_line) as [g| |] eqn:Hg; simpl in H; try discriminate.
  revert H.
  apply (forEach_invariant (Part000.highlight_line ecma g)
           (fun res => map children_text res = split_on newline sql)).
  - intros res k res' Hres Hk.
    destruct (VariantFacts.variant_line_inv _ _ _ _ _ Hk)
      as (rs & regex & text & es & Hrs & Hre & Ha & Hparts & ->).
    apply VariantFacts.array_get_nat in Ha. destruct Ha as [_ Ha].
    rewrite (VariantFacts.array_set_map children_text res _ _ _ Ha); [exact Hres|].
    destruct (VariantFacts.variant_parts_spec _ _ _ _ _ _ Hparts) as [Htxt _].
    simpl. rewrite Htxt.
    destruct (ParserFacts.createSnippetsRegex_plain (map sqlSnippet rs))
      as (R & HR & Hog).
    { apply forallb_forall. intros x Hx. apply in_map_iff in Hx.
      destruct Hx as (r & <- & Hr).
      destruct (groupBy_from_members _ _ _ Hg _ _ _ Hrs Hr) as [Hin|(rs0 & H0 & _)];
        [|discriminate].
      rewrite forallb_forall in Hp. apply Hp. exact Hin. }
    rewrite map_map in HR. assert (R = regex) by congruence. subst R.
    apply (SplitFacts.regexp_split_spec regex text Hog).
  - rewrite map_map. simpl. apply map_id.
Qed.

Lemma X12_variant_reconstruction_witness :
  map children_text
    [Text ("SELECT a" : str);
     Highlighted [span (Some ("FROM " : str)); mark (Some ("a" : str)) [];
                  span (Some [])];
     Text ("WHERE a" : str)] = split_on newline three_lines.
Proof.
  apply (X12_variant_reconstruction three_lines [ref 7 "a" 2]).
  - vm_compute. reflexivity.
  - vm_compute. reflexivity.
Defined.

(** X13.  In the variant the association test is handed the reference
    object instead of its snippet, so it cannot tell the references of a
    line apart: whenever the variant returns, a [<mark>] carries either no
    tag or a tag for every reference that declares its line. *)
Theorem X13_variant_tags_all_or_none (E : Engine) sql refs result i es part tags :
  Part000.SQLHighlight E sql refs = Normal result ->
  nth_error result i = Some (Highlighted es) ->
  In (mark part tags) es ->
  tags = [] \/ tags = filter (declares (Z.of_nat i + 1)) refs.
Proof.
  intro H. unfold Part000.SQLHighlight in H.
  destruct (groupBy refs location_line) as [g| |] eqn:Hg; simpl in H; try discriminate.
  revert i es part tags. revert H.
  apply (forEach_invariant (Part000.highlight_line E g)
           (fun res => forall i es part tags,
                nth_error res i = Some (Highlighted es) ->
                In (mark part tags) es ->
                tags = [] \/ tags = filter (declares (Z.of_nat i + 1)) refs)).
  - intros res k res' Hres Hk i es part tags Hnth Hmark.
    destruct (VariantFacts.variant_line_inv _ _ _ _ _ Hk)
      as (rs & regex & text & es0 & Hrs & Hre & Ha & Hparts & ->).
    apply VariantFacts.array_get_nat in Ha. destruct Ha as [Hpos Ha].
    rewrite VariantFacts.array_set_nth in Hnth.
    destruct ((i =? Z.to_nat (k - 1))%nat && (Z.to_nat (k - 1) <? length res)%nat)
      eqn:Hi; [|eauto].
    inversion Hnth; subst es0. apply andb_prop in Hi. destruct Hi as [Hi _].
    apply Nat.eqb_eq in Hi.
    destruct (VariantFacts.variant_parts_spec _ _ _ _ _ _ Hparts) as [_ Hmarks].
    specialize (Hmarks _ _ Hmark).
    rewrite (VariantFacts.groups_get _ _ k Hg) in Hrs.
    replace (Z.of_nat i + 1)%Z with k by lia.
    destruct (filter (declares k) refs) as [|r0 rs0]; inversion Hrs; subst rs.
    apply (VariantFacts.filter_c_constant (Part000.snippet_test E part) (r0 :: rs0));
      [intros r r'; reflexivity|exact Hmarks].
  - intros i es part tags Hnth. rewrite nth_error_map in Hnth.
    destruct (nth_error (split_on "010"%char sql) i); discriminate.
Qed.

Lemma X13_variant_tags_all_or_none_witness :
  [ref 1 "zz" 1; ref 2 "b" 1] = [] \/
  [ref 1 "zz" 1; ref 2 "b" 1]
    = filter (declares (Z.of_nat 0 + 1)) [ref 1 "zz" 1; ref 2 "b" 1].
Proof.
  apply (X13_variant_tags_all_or_none ecma ("x b" : str) [ref 1 "zz" 1; ref 2 "b" 1]
           [Highlighted [span (Some ("x " : str));
                         mark (Some ("b" : str)) [ref 1 "zz" 1; ref 2 "b" 1];
                         span (Some [])]]
           0%nat
           [span (Some ("x " : str));
            mark (Some ("b" : str)) [ref 1 "zz" 1; ref 2 "b" 1]; span (Some [])]
           (Some ("b" : str))).
  - vm_compute. reflexivity.
  - reflexivity.
  - right. left. reflexivity.
Defined.

(** X14.  What the variant's association test decides: [new RegExp] turns
    the reference object into the text "[object Object]", a class of
    characters, so the test passes on a piece exactly when the piece
    contains one of the letters b, c, e, j, o, t, O or a space, whatever the
    reference. *)
Theorem X14_variant_association part r :
  Part000.snippet_test ecma part r =
    Normal (existsb (fun x => existsb (fun a => (a =? x)%char) object_letters)
              (ToString part)).
Proof.
  unfold Part000.snippet_test. change (re_new ecma) with regexp_new.
  change (regexp_new ("[object Object]" : str) flags_none)
    with (Normal {| re_tree := CharSet object_letters; re_groups := 0;
                    re_flags := flags_none |}).
  cbn [bind]. change (re_test ecma) with regexp_test. f_equal.
  unfold regexp_test. simpl.
  generalize (length (ToString part)). intro size.
  induction (ToString part) as [|x t IH]; [reflexivity|].
  simpl. unfold match_at. simpl. unfold one, char_eq.
  destruct (existsb (fun a => (a =? x)%char) object_letters) eqn:Hx.
  - simpl in Hx. rewrite Hx. reflexivity.
  - simpl in Hx. rewrite Hx. simpl.
    destruct (search _ size t) as [[e caps]|] eqn:Hs; exact IH.
Qed.

(** X15.  A condition for the component to return: every reference with a
    location declares one of the lines of [sql].  A single reference that
    names line 0 or a line past the end makes the whole rendering throw. *)
Theorem X15_returns_only_within_lines (E : Engine) dev sql refs out r loc :
  SQLHighlight E dev sql refs = Normal out ->
  In r refs ->
  sqlLocation r = Some loc ->
  (1 <= line loc <= Z.of_nat (length (split_on newline sql)))%Z.
Proof.
  intros H Hin Hloc.
  destruct (Z_lt_dec (line loc) 1) as [Hlo|Hlo];
    [exfalso; apply (out_of_range_never_returns E dev sql refs r loc Hin Hloc
                       (or_introl Hlo) out H)|].
  destruct (Z_lt_dec (Z.of_nat (length (split_on newline sql))) (line loc)) as [Hhi|Hhi];
    [exfalso; apply (out_of_range_never_returns E dev sql refs r loc Hin Hloc
                       (or_intror Hhi) out H)|].
  lia.
Qed.

Lemma X15_returns_only_within_lines_witness :
  (1 <= line {| line := 2 |} <= Z.of_nat (length (split_on newline three_lines)))%Z.
Proof.
  apply (X15_returns_only_within_lines ecma false three_lines [ref 7 "a" 2]
           {| content := [Text ("SELECT a" : str);
                          Highlighted [span (Some ("FROM " : str));
                                       mark (Some ("a" : str)) [ref 7 "a" 2];
                                       span (Some [])];
                          Text ("WHERE a" : str)];
              warned := None |} (ref 7 "a" 2)).
  - vm_compute. reflexivity.
  - left. reflexivity.
  - reflexivity.
Defined.

(** X16.  The variant returns only if every reference of the list has a
    location that declares one of the lines of [sql], and then it renders
    one entry for each line. *)
Theorem X16_variant_returns_only (E : Engine) sql refs result :
  Part000.SQLHighlight E sql refs = Normal result ->
  length result = length (split_on newline sql) /\
  forall r, In r refs ->
    exists loc, sqlLocation r = Some loc /\
      (1 <= line loc <= Z.of_nat (length (split_on newline sql)))%Z.
Proof.
  intro H. unfold Part000.SQLHighlight in H.
  destruct (groupBy refs location_line) as [g| |] eqn:Hg; simpl in H; try discriminate.
  assert (Hstep : forall res k res',
            length res = length (split_on newline sql) ->
            Part000.highlight_line E g res k = Normal res' ->
            length res' = length (split_on newline sql)).
  { intros res k res' Hres Hk.
    destruct (VariantFacts.variant_line_inv _ _ _ _ _ Hk)
      as (rs & regex & text & es & _ & _ & _ & _ & ->).
    now rewrite VariantFacts.array_set_length. }
  assert (Hinit : length (map Text (split_on "010"%char sql))
                  = length (split_on newline sql)) by apply length_map.
  split.
  - exact (forEach_invariant _ _ Hstep _ _ _ Hinit H).
  - intros r Hin.
    destruct (VariantFacts.groupBy_from_all_located _ _ _ Hg r Hin) as [k Hk].
    destruct (location_line_inv _ _ Hk) as (loc & Hloc & Hline).
    exists loc. split; [exact Hloc|].
    destruct (groupBy_from_key _ _ _ _ _ Hg Hin Hk) as [rs Hrs].
    apply group_get_key, In_Object_keys in Hrs.
    destruct (VariantFacts.forEach_reaches_with _ _ Hstep _ _ _ _ Hinit H Hrs)
      as (res0 & res1 & Hlen & Hbody).
    destruct (VariantFacts.variant_line_inv _ _ _ _ _ Hbody)
      as (rs' & regex & text & es & _ & _ & Ha & _).
    apply VariantFacts.array_get_nat in Ha. destruct Ha as [Hpos Ha].
    assert (Hlt : (Z.to_nat (k - 1) < length res0)%nat)
      by (apply nth_error_Some; congruence).
    rewrite Hlen in Hlt. lia.
Qed.

Lemma X16_variant_returns_only_witness :
  length [Text ("SELECT a" : str);
          Highlighted [span (Some ("FROM " : str)); mark (Some ("a" : str)) [];
                       span (Some [])];
          Text ("WHERE a" : str)] = length (split_on newline three_lines) /\
  exists loc, sqlLocation (ref 7 "a" 2) = Some loc /\
    (1 <= line loc <= Z.of_nat (length (split_on newline three_lines)))%Z.
Proof.
  assert (H : Part000.SQLHighlight ecma three_lines [ref 7 "a" 2]
              = Normal [Text ("SELECT a" : str);
                        Highlighted [span (Some ("FROM " : str));
                                     mark (Some ("a" : str)) []; span (Some [])];
                        Text ("WHERE a" : str)])
    by (vm_compute; reflexivity).
  split.
  - exact (proj1 (X16_variant_returns_only ecma three_lines [ref 7 "a" 2] _ H)).
  - exact (proj2 (X16_variant_returns_only ecma three_lines [ref 7 "a" 2] _ H)
             (ref 7 "a" 2) (or_introl eq_refl)).
Defined.


(** * References that match nothing on their line *)

(** ** Loose occurrence *)










(** ** The pattern of a literal snippet *)




(** ** The pattern of a line of literal snippets *)









(** ** Alternatives that cannot match *)







(** ** Splitting and testing with patterns that behave alike *)














(** ** The lines of the output, one by one *)



(** ** Leaving a reference out of the list *)









